(** * Unigma: a three-rotor Enigma simulator (rotors I, II, III, reflector B)

    Shallow embedding of [unigma.c] / [unigma.h] and the properties of its
    cipher engine.

    Conventions of the embedding.
    - A C [int] is a [Z].  Every value the engine computes stays far inside
      the range of [int]; signed overflow is undefined in C and is not
      modelled.  The C remainder [%] truncates towards zero: [Z.rem].
    - A [char] is the [Z] of its code (0..255).  The program only compares
      characters with each other and with ASCII constants, and subtracts 32
      from lowercase letters.
    - A C array is a [list]; a string held in an array includes its
      terminating NUL.  A string passed as an argument is the list of its
      characters before the NUL, and a pointer that may be NULL is an
      [option].
    - [exit(n)] is the outcome [Exit n]. *)

From Stdlib Require Import ZArith List Bool Lia String Ascii.
Import ListNotations.
Open Scope Z_scope.

(** ** Constants of unigma.h *)

Definition NUM_ROTORS : nat := 3.
Definition NUM_ROTOR_WIRINGS : nat := 4.
Definition ALPHABET_SIZE : Z := 26.
Definition MAX_PLUGBOARD_LEN : nat := 256.

(** ** Characters, strings and arrays *)

Definition char_code (a : ascii) : Z := Z.of_N (N_of_ascii a).

(** The characters of a string literal, without the terminating NUL. *)
Definition chars (s : string) : list Z := map char_code (list_ascii_of_string s).

(** A string literal as it lies in memory: its characters and a NUL. *)
Definition literal (s : string) : list Z := chars s ++ [0].

(** [a[i]] for an array [a]; the theorems below establish that the engine
    only uses indices inside its arrays. *)
Definition at_index (a : list Z) (i : Z) : Z := nth (Z.to_nat i) a 0.

Fixpoint store (a : list Z) (i : nat) (v : Z) : list Z :=
  match a, i with
  | [], _ => []
  | _ :: r, O => v :: r
  | x :: r, S j => x :: store r j v
  end.

Fixpoint store_row (a : list (list Z)) (i : nat) (v : list Z) : list (list Z) :=
  match a, i with
  | [], _ => []
  | _ :: r, O => v :: r
  | x :: r, S j => x :: store_row r j v
  end.

(** [SAFE_STRCPY(dest, src, size)] in its portable form:
    [strncpy(dest, src, size-1); dest[size-1] = '\0'].  [strncpy] copies at
    most [size-1] characters of [src] and pads with NULs up to [size-1]. *)
Definition SAFE_STRCPY (dest src : list Z) (size : nat) : list Z :=
  firstn (size - 1) (src ++ repeat 0 (size - 1)) ++ 0 :: skipn size dest.

Definition is_lower (c : Z) : bool := (97 <=? c) && (c <=? 122).
Definition not_upper (c : Z) : bool := (c <? 65) || (c >? 90).

(** [if (c >= 'a' && c <= 'z') c -= 32;] *)
Definition to_upper (c : Z) : Z := if is_lower c then c - 32 else c.

(** ** The tables of unigma.c *)

Definition ROTOR_WIRINGS : list string :=
  [ "EKMFLGDQVZNTOWYHXUSPAIBRCJ"%string;   (* Rotor I *)
    "AJDKSIRUXBLHWTMCQGZNPYFVOE"%string;   (* Rotor II *)
    "BDFHJLCPRTXVZNYEIWGAKMUSQO"%string;   (* Rotor III *)
    "YRUHQSLDPXNGOKMIEBFZCWVJAT"%string ]. (* Reflector B *)

Definition NOTCH_POSITIONS_INIT : list Z := [16; 4; 21].

Definition ALPHABET : list Z := literal "ABCDEFGHIJKLMNOPQRSTUVWXYZ".

(** ** Machine state *)

Record EnigmaState := mkState {
  rotors : list (list Z);      (* RotorWiring rotors[4], each char wiring[27] *)
  notch_positions : list Z;    (* int notch_positions[3] *)
  positions : list Z;          (* int positions[3]: [0] right, [1] middle, [2] left *)
  plugboard : list Z           (* char plugboard[256] *)
}.

Definition set_rotors (s : EnigmaState) (r : list (list Z)) : EnigmaState :=
  mkState r (notch_positions s) (positions s) (plugboard s).
Definition set_notches (s : EnigmaState) (n : list Z) : EnigmaState :=
  mkState (rotors s) n (positions s) (plugboard s).
Definition set_positions (s : EnigmaState) (p : list Z) : EnigmaState :=
  mkState (rotors s) (notch_positions s) p (plugboard s).
Definition set_plugboard_array (s : EnigmaState) (b : list Z) : EnigmaState :=
  mkState (rotors s) (notch_positions s) (positions s) b.

(** [state->positions[i]], [state->notch_positions[i]],
    [state->rotors[r].wiring] *)
Definition pos (s : EnigmaState) (i : nat) : Z := nth i (positions s) 0.
Definition notch (s : EnigmaState) (i : nat) : Z := nth i (notch_positions s) 0.
Definition wiring (s : EnigmaState) (r : nat) : list Z := nth r (rotors s) [].

Definition assign_pos (s : EnigmaState) (i : nat) (v : Z) : EnigmaState :=
  set_positions s (store (positions s) i v).

(** ** Initialisation *)

(** [memset(state, 0, sizeof(EnigmaState))] *)
Definition zeroed : EnigmaState :=
  mkState (repeat (repeat 0 27%nat) NUM_ROTOR_WIRINGS)
          (repeat 0 NUM_ROTORS) (repeat 0 NUM_ROTORS)
          (repeat 0 MAX_PLUGBOARD_LEN).

Definition init_rotors (state : EnigmaState) : EnigmaState :=
  fold_left
    (fun st i =>
       set_rotors st
         (store_row (rotors st) i
            (SAFE_STRCPY (wiring st i) (chars (nth i ROTOR_WIRINGS ""%string)) 27)))
    (seq 0 NUM_ROTOR_WIRINGS) state.

Definition init_notches (state : EnigmaState) : EnigmaState :=
  fold_left
    (fun st i =>
       set_notches st (store (notch_positions st) i (nth i NOTCH_POSITIONS_INIT 0)))
    (seq 0 NUM_ROTORS) state.

Definition init_positions (state : EnigmaState) : EnigmaState :=
  fold_left (fun st i => assign_pos st i 0) (seq 0 NUM_ROTORS) state.

Definition init_plugboard (state : EnigmaState) : EnigmaState :=
  set_plugboard_array state (store (plugboard state) 0 0).

Definition init_enigma : EnigmaState :=
  init_plugboard (init_positions (init_notches (init_rotors zeroed))).

(** ** Helpers *)

(** [idx(s, c)]: index of the first occurrence of [c] in the string [s],
    -1 when the terminating NUL is reached first.  (Every array the engine
    searches holds its NUL; the empty case stands for the end of the
    array.) *)
Fixpoint idx_from (s : list Z) (c : Z) (n : Z) : Z :=
  match s with
  | [] => -1
  | ch :: p =>
      if ch =? 0 then -1
      else if ch =? c then n
      else idx_from p c (n + 1)
  end.

Definition idx (s : list Z) (c : Z) : Z := idx_from s c 0.

Definition mod_positive (a : Z) : Z :=
  Z.rem (Z.rem a ALPHABET_SIZE + ALPHABET_SIZE) ALPHABET_SIZE.

(** ** Rotor traversal *)

Definition encode_through_rotor
    (k : Z) (rotor_index : nat) (position : Z) (direction : Z)
    (state : EnigmaState) : Z :=
  let i := mod_positive (k + position) in
  if direction =? 0 then
    let wired_char := at_index (wiring state rotor_index) i in
    mod_positive (idx ALPHABET wired_char - position)
  else
    let alphabet_char := at_index ALPHABET i in
    mod_positive (idx (wiring state rotor_index) alphabet_char - position).

(** ** Stepping *)

Definition step_rotors (state : EnigmaState) : EnigmaState :=
  let state :=
    if pos state 1 =? notch state 1 then
      let state := assign_pos state 1 (mod_positive (pos state 1 + 1)) in
      assign_pos state 2 (mod_positive (pos state 2 + 1))
    else if pos state 0 =? notch state 0 then
      assign_pos state 1 (mod_positive (pos state 1 + 1))
    else state in
  assign_pos state 0 (mod_positive (pos state 0 + 1)).

(** ** Plugboard *)

(** The result of one call of [apply_plugboard] on the [plugboard] array:
    the character returned, or a read outside the array (undefined
    behaviour in C).  [reads] lists the indices the call dereferenced, the
    most recent first. *)
Inductive plug_result :=
| Returned (c : Z) (reads : list nat)
| OutOfBounds (reads : list nat).

(** [while ( *ptr == ' ') ptr++;] followed by the rest of the scan [k].
    [m] is the array from [ptr] on and [q] the index of [ptr]. *)
Fixpoint skip_spaces {R : Type}
    (k : list Z -> nat -> list nat -> R) (oob : list nat -> R)
    (m : list Z) (q : nat) (lg : list nat) {struct m} : R :=
  match m with
  | [] => oob (q :: lg)
  | x :: m' =>
      if x =? 32 then skip_spaces k oob m' (S q) (q :: lg)
      else k m q (q :: lg)
  end.

(** The [while ( *ptr)] loop of [apply_plugboard]; [l] is the array from
    [ptr] on and [ptr] its index in the array. *)
Fixpoint plug_scan (c : Z) (l : list Z) (ptr : nat) (lg : list nat)
    {struct l} : plug_result :=
  match l with
  | [] => OutOfBounds (ptr :: lg)
  | a :: l1 =>
      if a =? 0 then Returned c (ptr :: lg)
      else
        match l1 with
        | [] => OutOfBounds (S ptr :: ptr :: lg)
        | b :: l2 =>
            if (c =? a) && negb (b =? 0) then Returned b (S ptr :: ptr :: lg)
            else if c =? b then Returned a (S ptr :: ptr :: lg)
            else skip_spaces (plug_scan c) OutOfBounds l2
                   (S (S ptr)) (S ptr :: ptr :: lg)
        end
  end.

Definition apply_plugboard (c : Z) (plugboard : list Z) : plug_result :=
  match plugboard with
  | [] => OutOfBounds [0%nat]
  | p0 :: _ =>
      if p0 =? 0 then Returned c [0%nat]
      else plug_scan c plugboard 0 [0%nat]
  end.

(** ** Outcomes *)

Inductive outcome (A : Type) :=
| Ok (a : A)
| Exit (status : Z)          (* the program called exit(status) *)
| Undefined.                 (* a read outside an array *)
Arguments Ok {A} a.
Arguments Exit {A} status.
Arguments Undefined {A}.

Definition bind {A B : Type} (m : outcome A) (f : A -> outcome B) : outcome B :=
  match m with
  | Ok a => f a
  | Exit n => Exit n
  | Undefined => Undefined
  end.

Notation "x <- m ;; f" := (bind m (fun x => f))
  (at level 61, m at next level, right associativity).

Definition plugged (r : plug_result) : outcome Z :=
  match r with
  | Returned c _ => Ok c
  | OutOfBounds _ => Undefined
  end.

(** ** The enciphering loop *)

(** [putchar(c)] writes [c] converted to [unsigned char]. *)
Definition putchar (c : Z) : Z := c mod 256.

(** The substitution pipeline of [run_enigma], from the input plugboard to
    the output plugboard, at the current positions of [state]. *)
Definition substitute (state : EnigmaState) (c : Z) : outcome Z :=
  c <- plugged (apply_plugboard c (plugboard state)) ;;
  let c := c - 65 in
  let c := encode_through_rotor c 2 (pos state 0) 0 state in
  let c := encode_through_rotor c 1 (pos state 1) 0 state in
  let c := encode_through_rotor c 0 (pos state 2) 0 state in
  let c := idx ALPHABET (at_index (wiring state 3) c) in
  let c := encode_through_rotor c 0 (pos state 2) 1 state in
  let c := encode_through_rotor c 1 (pos state 1) 1 state in
  let c := encode_through_rotor c 2 (pos state 0) 1 state in
  let c := c + 65 in
  plugged (apply_plugboard c (plugboard state)).

(** One turn of the [while ((c = getchar()) != EOF)] loop: the character
    written and the state after it. *)
Definition run_enigma_char (state : EnigmaState) (c : Z)
    : outcome (Z * EnigmaState) :=
  let c := to_upper c in
  if not_upper c then Ok (putchar c, state)
  else
    let state := step_rotors state in
    c <- substitute state c ;;
    Ok (putchar c, state).

(** [run_enigma] on the characters [input] read until EOF: the characters
    written and the final state. *)
Fixpoint run_enigma (state : EnigmaState) (input : list Z)
    : outcome (list Z * EnigmaState) :=
  match input with
  | [] => Ok ([], state)
  | c :: rest =>
      r <- run_enigma_char state c ;;
      r' <- run_enigma (snd r) rest ;;
      Ok (fst r :: fst r', snd r')
  end.

(** ** Runtime configuration *)

Definition set_rotor_positions (state : EnigmaState) (positions : option (list Z))
    : outcome EnigmaState :=
  match positions with
  | None => Exit 1
  | Some p =>
      if negb (Nat.eqb (List.length p) 3) then Exit 1
      else if existsb (fun ch => not_upper (to_upper ch)) (firstn 3 p)
      then Exit 1
      else
        let state := assign_pos state 2 (at_index p 0 - 65) in
        let state := assign_pos state 1 (at_index p 1 - 65) in
        Ok (assign_pos state 0 (at_index p 2 - 65))
  end.

(** The loop [for (i = 0; i < strlen(plugboard); i++)] of [set_plugboard]:
    every character before the first NUL is folded to uppercase. *)
Fixpoint upcase_string (buf : list Z) : list Z :=
  match buf with
  | [] => []
  | ch :: r =>
      if ch =? 0 then buf
      else to_upper ch :: upcase_string r
  end.

Definition set_plugboard (state : EnigmaState) (plugboard_config : option (list Z))
    : outcome EnigmaState :=
  match plugboard_config with
  | None => Ok (set_plugboard_array state (store (plugboard state) 0 0))
  | Some cfg =>
      let len := List.length cfg in
      if Nat.leb MAX_PLUGBOARD_LEN len then Exit 1
      else
        let state :=
          set_plugboard_array state
            (SAFE_STRCPY (plugboard state) cfg MAX_PLUGBOARD_LEN) in
        Ok (set_plugboard_array state (upcase_string (plugboard state)))
  end.

Definition streq (a : list Z) (b : string) : bool :=
  if list_eq_dec Z.eq_dec a (chars b) then true else false.

(** The loop of [parse_arguments] over [argv[1..]]; messages go to stderr
    and are not modelled. *)
Fixpoint parse_loop (args : list (list Z)) (state : EnigmaState)
    (show_config : bool) : outcome (EnigmaState * bool) :=
  match args with
  | [] => Ok (state, show_config)
  | a :: rest =>
      if streq a "-h" || streq a "--help" then Exit 0
      else if streq a "-s" || streq a "--show" then parse_loop rest state true
      else if streq a "-p" || streq a "--positions" then
        match rest with
        | [] => Exit 1
        | v :: rest' =>
            st <- set_rotor_positions state (Some v) ;;
            parse_loop rest' st show_config
        end
      else if streq a "-b" || streq a "--plugboard" then
        match rest with
        | [] => Exit 1
        | v :: rest' =>
            st <- set_plugboard state (Some v) ;;
            parse_loop rest' st show_config
        end
      else Exit 1
  end.

Definition parse_arguments (args : list (list Z)) (state : EnigmaState)
    : outcome EnigmaState :=
  r <- parse_loop args state false ;;
  if snd r then Exit 0 else Ok (fst r).

(** [main] when options are given ([argc > 1]): [args] is [argv[1..]],
    [input] the characters on stdin; the result is what is written to
    stdout. *)
Definition main_with_options (args : list (list Z)) (input : list Z)
    : outcome (list Z) :=
  state <- parse_arguments args init_enigma ;;
  r <- run_enigma state input ;;
  Ok (fst r).

(** ** Valid states

    A plugboard of two-letter pairs: the pair [(a, b, n)] is written as the
    letters [a], [b] and [n] spaces.  The lists of the specification, with
    their pairs separated by spaces, are those whose gaps are positive. *)
Fixpoint pairs_text (ps : list (Z * Z * nat)) : list Z :=
  match ps with
  | [] => []
  | (a, b, n) :: r => a :: b :: repeat 32 n ++ pairs_text r
  end.

Fixpoint pair_letters (ps : list (Z * Z * nat)) : list Z :=
  match ps with
  | [] => []
  | (a, b, _) :: r => a :: b :: pair_letters r
  end.

Definition is_upper (c : Z) : bool := (65 <=? c) && (c <=? 90).

Fixpoint distinct (l : list Z) : bool :=
  match l with
  | [] => true
  | x :: r => negb (existsb (Z.eqb x) r) && distinct r
  end.

(** Every letter is in A..Z and no letter occurs twice. *)
Definition pairs_ok (ps : list (Z * Z * nat)) : bool :=
  forallb is_upper (pair_letters ps) && distinct (pair_letters ps).

(** The letter wired to [c] by the pairs [ps]. *)
Fixpoint swap (ps : list (Z * Z * nat)) (c : Z) : Z :=
  match ps with
  | [] => c
  | (a, b, _) :: r => if c =? a then b else if c =? b then a else swap r c
  end.

Definition in_range (p : Z) : Prop := 0 <= p <= 25.

(** What [set_rotor_positions] stores for a character it accepts: a letter
    of either case minus 'A'. *)
Definition stored_position (p : Z) : Prop := 0 <= p <= 25 \/ 32 <= p <= 57.

(** The plugboard array holds a text of disjoint letter pairs and its NUL. *)
Definition plugboard_paired (s : EnigmaState) : Prop :=
  exists ps rest, pairs_ok ps = true /\ plugboard s = pairs_text ps ++ 0 :: rest.

(** A state as configuration leaves it: the wirings and notches of
    [init_enigma], three positions as [set_rotor_positions] stores them, and
    a plugboard of disjoint letter pairs. *)
Definition configured_state (s : EnigmaState) : Prop :=
  rotors s = rotors init_enigma /\
  notch_positions s = NOTCH_POSITIONS_INIT /\
  (List.length (positions s) = 3%nat /\ Forall stored_position (positions s)) /\
  plugboard_paired s.

(** A configured state whose three positions are in 0..25. *)
Definition valid_state (s : EnigmaState) : Prop :=
  configured_state s /\ Forall in_range (positions s).

Definition is_byte (c : Z) : Prop := 0 <= c <= 255.

(** ** The specification's rotor transforms

    The wiring tables as the specification gives them, as permutations of
    0..25, to compare with [encode_through_rotor]. *)
Definition spec_W_table (r : nat) : list Z :=
  match r with
  | 0%nat => [4;10;12;5;11;6;3;16;21;25;13;19;14;22;24;7;23;20;18;15;0;8;1;17;2;9]
  | 1%nat => [0;9;3;10;18;8;17;20;23;1;11;7;22;19;12;2;16;6;25;13;15;24;5;21;14;4]
  | 2%nat => [1;3;5;7;9;11;2;15;17;19;23;21;25;13;24;4;8;22;6;0;10;12;20;18;16;14]
  | _ => [24;17;20;7;16;18;11;3;15;23;13;6;14;10;12;8;4;1;5;25;2;22;21;9;0;19]
  end.

Definition spec_W (r : nat) (i : Z) : Z := nth (Z.to_nat i) (spec_W_table r) 0.

Fixpoint find_from (l : list Z) (j : Z) (n : Z) : Z :=
  match l with
  | [] => n
  | x :: r => if x =? j then n else find_from r j (n + 1)
  end.

(** The inverse permutation: the input contact wired to output [j]. *)
Definition spec_W_inv (r : nat) (j : Z) : Z := find_from (spec_W_table r) j 0.

Definition rotor_forward (r : nat) (p x : Z) : Z :=
  (spec_W r ((x + p) mod 26) - p) mod 26.

Definition rotor_reverse (r : nat) (p x : Z) : Z :=
  (spec_W_inv r ((x + p) mod 26) - p) mod 26.

(** ** The specification's BadPlugboard

    The plugboard strings the specification rejects: a non-letter inside a
    token, a token that is not exactly two letters, a self-pair, a letter in
    more than one token, or more than 255 characters. *)
Definition is_space (c : Z) : bool :=
  (c =? 32) || ((9 <=? c) && (c <=? 13)).

Definition is_letter (c : Z) : bool := is_upper c || is_lower c.

Fixpoint tokens_from (s : list Z) (cur : list Z) : list (list Z) :=
  match s with
  | [] => match cur with [] => [] | _ => [rev cur] end
  | c :: r =>
      if is_space c
      then match cur with [] => tokens_from r [] | _ => rev cur :: tokens_from r [] end
      else tokens_from r (c :: cur)
  end.

Definition tokens (s : list Z) : list (list Z) := tokens_from s [].

Definition self_pair (t : list Z) : bool :=
  match t with
  | [a; b] => to_upper a =? to_upper b
  | _ => false
  end.

Definition spec_BadPlugboard (cfg : list Z) : bool :=
  let ts := tokens cfg in
  existsb (existsb (fun c => negb (is_letter c))) ts
  || existsb (fun t => negb (Nat.eqb (List.length t) 2)) ts
  || existsb self_pair ts
  || negb (distinct (map to_upper (List.concat ts)))
  || Nat.ltb 255 (List.length cfg).

(** ** Checks on the tables *)

Definition Zrange (n : nat) : list Z := map Z.of_nat (seq 0 n).

Definition all26 (f : Z -> bool) : bool := forallb f (Zrange 26).

(** The code and the specification's transforms agree at [r], [k], [p]. *)
Definition rotor_agrees (r : nat) (k p : Z) : bool :=
  (encode_through_rotor k r p 0 init_enigma =? rotor_forward r p k)
  && (encode_through_rotor k r p 1 init_enigma =? rotor_reverse r p k)
  && (spec_W_inv r (spec_W r k) =? k)
  && (spec_W r (spec_W_inv r k) =? k).

(** ** The rotor stack

    [idx(ALPHABET, state->rotors[3].wiring[c])], the reflector step of
    [run_enigma]. *)
Definition reflector (state : EnigmaState) (c : Z) : Z :=
  idx ALPHABET (at_index (wiring state 3) c).

(** The seven steps of [run_enigma] between the two plugboard passes, on a
    contact number. *)
Definition rotor_stack (state : EnigmaState) (c : Z) : Z :=
  let c := encode_through_rotor c 2 (pos state 0) 0 state in
  let c := encode_through_rotor c 1 (pos state 1) 0 state in
  let c := encode_through_rotor c 0 (pos state 2) 0 state in
  let c := reflector state c in
  let c := encode_through_rotor c 0 (pos state 2) 1 state in
  let c := encode_through_rotor c 1 (pos state 1) 1 state in
  encode_through_rotor c 2 (pos state 0) 1 state.

(** Rotor [r] in the slot whose position is [positions[i]], forwards and in
    reverse. *)
Definition rotor_fwd (state : EnigmaState) (r i : nat) (k : Z) : Z :=
  encode_through_rotor k r (pos state i) 0 state.
Definition rotor_bwd (state : EnigmaState) (r i : nat) (k : Z) : Z :=
  encode_through_rotor k r (pos state i) 1 state.

(** At position [p], rotor [r] forwards then in reverse (and in reverse
    then forwards) brings contact [k] back. *)
Definition rotor_inverts (r : nat) (k p : Z) : bool :=
  (encode_through_rotor (encode_through_rotor k r p 0 init_enigma) r p 1
     init_enigma =? k)
  && (encode_through_rotor (encode_through_rotor k r p 1 init_enigma) r p 0
        init_enigma =? k).

(** The reflector sends [k] into 0..25, away from [k], and back again. *)
Definition reflector_swaps (k : Z) : bool :=
  let k' := reflector init_enigma k in
  (0 <=? k') && (k' <=? 25) && negb (k' =? k)
  && (reflector init_enigma k' =? k).

(** ** Example states

    The state after the options -p XYZ -b "ab CD", and after
    -p xyz -b "ab CD". *)
Definition configure (p b : string) : EnigmaState :=
  match
    (st <- set_rotor_positions init_enigma (Some (chars p)) ;;
     set_plugboard st (Some (chars b)))
  with
  | Ok st => st
  | _ => init_enigma
  end.

Definition example_state : EnigmaState := configure "XYZ" "ab CD".

Definition example_lower_state : EnigmaState := configure "xyz" "ab CD".

(** ** Printing the configuration *)

(** An [int] stored in a [char] or printed with [%c]. *)
Definition to_char (x : Z) : Z := x mod 256.

(** The characters of the string held in a [char] array, up to its first
    NUL: what [strlen] counts and [%s] prints. *)
Fixpoint c_string (buf : list Z) : list Z :=
  match buf with
  | [] => []
  | c :: r => if c =? 0 then [] else c :: c_string r
  end.

(** A string literal that ends in a newline. *)
Definition text_line (s : string) : list Z := chars s ++ [10].

(** The array [pos_str] of [print_current_config]: left, middle, right. *)
Definition pos_str (state : EnigmaState) : list Z :=
  [ to_char (65 + pos state 2);
    to_char (65 + pos state 1);
    to_char (65 + pos state 0);
    0 ].

(** What [print_current_config] writes to stderr. *)
Definition print_current_config (state : EnigmaState) : list Z :=
  let pos_str := pos_str state in
  text_line "=== Enigma Configuration ==="
  ++ text_line "Rotors:     I, II, III"
  ++ text_line "Reflector:  B"
  ++ chars "Positions:  " ++ c_string pos_str
  ++ chars " (Left: " ++ [at_index pos_str 0]
  ++ chars ", Middle: " ++ [at_index pos_str 1]
  ++ chars ", Right: " ++ [at_index pos_str 2] ++ text_line ")"
  ++ chars "Plugboard:  "
  ++ (if at_index (plugboard state) 0 =? 0 then chars "(none)"
      else c_string (plugboard state))
  ++ [10]
  ++ text_line "===========================".

(** ** The interactive dialogue *)

(** The characters [fgets] stores when at most [n] may be read: it stops
    after a newline or at the end of the input.  The result is the
    characters stored and the input left unread. *)
Fixpoint fgets_chars (n : nat) (stdin : list Z) : list Z * list Z :=
  match n with
  | O => ([], stdin)
  | S n' =>
      match stdin with
      | [] => ([], [])
      | c :: rest =>
          if c =? 10 then ([c], rest)
          else let (l, r) := fgets_chars n' rest in (c :: l, r)
      end
  end.

(** [fgets(input, size, stdin)]: NULL ([None]) at the end of the input when
    nothing was read, else the array filled (the characters and a NUL) and
    the input left. *)
Definition fgets (size : nat) (stdin : list Z) : option (list Z * list Z) :=
  match stdin with
  | [] => None
  | _ => let (l, r) := fgets_chars (size - 1) stdin in Some (l ++ [0], r)
  end.

(** [len = strlen(input); if (len > 0 && input[len-1] == '\n')
    input[len-1] = '\0';]: the string left in [input]. *)
Definition chomp (input : list Z) : list Z :=
  let line := c_string input in
  if (Nat.ltb 0 (List.length line)) && (last line 0 =? 10)
  then removelast line else line.

(** [while ( *start == ' ' || *start == '\t') start++;] *)
Fixpoint skip_blanks (s : list Z) : list Z :=
  match s with
  | [] => []
  | c :: r => if (c =? 32) || (c =? 9) then skip_blanks r else s
  end.

(** The first half of [interactive_config]: banner, prompt and the line of
    rotor positions. *)
Definition ask_positions (state : EnigmaState) (stdin : list Z)
    : list Z * outcome (EnigmaState * list Z) :=
  let out :=
    text_line "UNIGMA: THE LITTLE UNIVAC ENIGMA SIMULATOR"
    ++ text_line "ROTORS: I, II, III | REFLECTOR: B"
    ++ text_line ""
    ++ text_line "--- CONFIGURATION ---"
    ++ text_line ""
    ++ chars "ROTOR POSITIONS (3 LETTERS A-Z, PRESS ENTER FOR AAA): " in
  match fgets 256 stdin with
  | None => (out, Ok (state, stdin))
  | Some (input, rest) =>
      let line := chomp input in
      if Nat.ltb 0 (List.length line) then
        match skip_blanks line with
        | [] => (out ++ text_line "USING DEFAULT: AAA", Ok (state, rest))
        | start =>
            match set_rotor_positions state (Some start) with
            | Ok st =>
                (out ++ chars "POSITIONS SET TO: "
                 ++ [to_char (65 + pos st 2); to_char (65 + pos st 1);
                     to_char (65 + pos st 0)]
                 ++ [10],
                 Ok (st, rest))
            | Exit n => (out, Exit n)
            | Undefined => (out, Undefined)
            end
        end
      else (out ++ text_line "USING DEFAULT: AAA", Ok (state, rest))
  end.

(** The second half: prompt and the line of plugboard pairs, then the
    closing lines. *)
Definition ask_plugboard (state : EnigmaState) (stdin : list Z)
    : list Z * outcome (EnigmaState * list Z) :=
  let out :=
    text_line ""
    ++ chars "PLUGBOARD PAIRS (E.G. 'AB CD EF', PRESS ENTER FOR NONE): " in
  let closing :=
    text_line ""
    ++ text_line "--- READY TO ENCRYPT/DECRYPT ---"
    ++ text_line "ENTER TEXT (CTRL+Z OR CTRL+D TO END):"
    ++ text_line "" in
  match fgets 256 stdin with
  | None => (out ++ closing, Ok (state, stdin))
  | Some (input, rest) =>
      match skip_blanks (chomp input) with
      | [] => (out ++ text_line "NO PLUGBOARD" ++ closing, Ok (state, rest))
      | start =>
          match set_plugboard state (Some start) with
          | Ok st =>
              (out ++ chars "PLUGBOARD SET TO: " ++ c_string (plugboard st)
               ++ [10] ++ closing,
               Ok (st, rest))
          | Exit n => (out, Exit n)
          | Undefined => (out, Undefined)
          end
      end
  end.

(** [interactive_config]: what it writes to stdout, and the state it leaves
    with the input still unread, or the exit of the program. *)
Definition interactive_config (state : EnigmaState) (stdin : list Z)
    : list Z * outcome (EnigmaState * list Z) :=
  match ask_positions state stdin with
  | (out1, Ok (st1, rest1)) =>
      match ask_plugboard st1 rest1 with
      | (out2, r) => (out1 ++ out2, r)
      end
  | (out1, Exit n) => (out1, Exit n)
  | (out1, Undefined) => (out1, Undefined)
  end.

(** [main]: [args] is [argv[1..]], [stdin] the whole input.  The result is
    what is written to stdout and how the program ends ([Ok tt] for
    [return 0]). *)
Definition main (args : list (list Z)) (stdin : list Z)
    : list Z * outcome unit :=
  let configured :=
    match args with
    | [] => interactive_config init_enigma stdin
    | _ =>
        match parse_arguments args init_enigma with
        | Ok st => ([], Ok (st, stdin))
        | Exit n => ([], Exit n)
        | Undefined => ([], Undefined)
        end
    end in
  match configured with
  | (out, Ok (st, rest)) =>
      match run_enigma st rest with
      | Ok (written, _) => (out ++ written, Ok tt)
      | Exit n => (out, Exit n)
      | Undefined => (out, Undefined)
      end
  | (out, Exit n) => (out, Exit n)
  | (out, Undefined) => (out, Undefined)
  end.

(** ** Counting *)

(** The number of letters, of either case, in an input. *)
Definition count_letters (input : list Z) : nat :=
  List.length (filter (fun c => negb (not_upper (to_upper c))) input).

Fixpoint steps (n : nat) (state : EnigmaState) : EnigmaState :=
  match n with
  | O => state
  | S n' => steps n' (step_rotors state)
  end.

(** ** Rotor traversal with its reads

    [idx] together with the indices of [s] it dereferences, in order; a
    read past the end of the array is recorded like any other. *)
Fixpoint idx_reads (s : list Z) (c : Z) (n : Z) : Z * list Z :=
  match s with
  | [] => (-1, [n])
  | ch :: p =>
      if ch =? 0 then (-1, [n])
      else if ch =? c then (n, [n])
      else let (r, t) := idx_reads p c (n + 1) in (r, n :: t)
  end.

(** What one call of [encode_through_rotor] does: the indices it reads in
    [state->rotors[rotor_index].wiring] and in [ALPHABET], what its call of
    [idx] returns, and the value it returns. *)
Record rotor_reads := mkReads {
  wiring_reads : list Z;
  alphabet_reads : list Z;
  lookup : Z;
  returned : Z
}.

Definition encode_through_rotor_reads
    (k : Z) (rotor_index : nat) (position : Z) (direction : Z)
    (state : EnigmaState) : rotor_reads :=
  let i := mod_positive (k + position) in
  if direction =? 0 then
    let wired_char := at_index (wiring state rotor_index) i in
    let (j, t) := idx_reads ALPHABET wired_char 0 in
    mkReads [i] t j (mod_positive (j - position))
  else
    let alphabet_char := at_index ALPHABET i in
    let (j, t) := idx_reads (wiring state rotor_index) alphabet_char 0 in
    mkReads t [i] j (mod_positive (j - position)).

Definition in25 (i : Z) : bool := (0 <=? i) && (i <=? 25).

(** At [r], [k], [p] and direction [d], every index read is in 0..25, the
    lookup is found, and the value returned is in 0..25 and is that of
    [encode_through_rotor]. *)
Definition reads_safe (d : Z) (r : nat) (k p : Z) : bool :=
  let t := encode_through_rotor_reads k r p d init_enigma in
  forallb in25 (wiring_reads t) && forallb in25 (alphabet_reads t)
  && negb (Nat.eqb (List.length (wiring_reads t)) 0)
  && negb (Nat.eqb (List.length (alphabet_reads t)) 0)
  && negb (lookup t =? -1) && in25 (lookup t) && in25 (returned t)
  && (returned t =? encode_through_rotor k r p d init_enigma).

(** Operands whose sums and differences stay inside a 32-bit [int]. *)
Definition half_int (x : Z) : Prop := -1073741824 < x < 1073741824.

(** * Properties *)

(** ** Arithmetic modulo 26 *)

Lemma mod_positive_mod (a : Z) : mod_positive a = a mod 26.
Proof.
  unfold mod_positive, ALPHABET_SIZE.
  pose proof (Z.quot_rem' a 26) as Hq.
  assert (Hr : -26 < Z.rem a 26 < 26).
  { pose proof (Z.rem_bound_abs a 26); lia. }
  rewrite Z.rem_mod_nonneg by lia.
  assert (Ha : a mod 26 = Z.rem a 26 mod 26).
  { rewrite Hq at 1. rewrite Z.add_comm, Z.mul_comm. apply Z_mod_plus_full. }
  rewrite Ha, <- (Z_mod_plus_full (Z.rem a 26) 1 26).
  f_equal; lia.
Qed.

Lemma mod_positive_range (a : Z) : 0 <= mod_positive a <= 25.
Proof.
  rewrite mod_positive_mod.
  pose proof (Z.mod_pos_bound a 26); lia.
Qed.

Lemma mod_positive_small (a : Z) : 0 <= a <= 25 -> mod_positive a = a.
Proof. intros H. rewrite mod_positive_mod. apply Z.mod_small; lia. Qed.

(** ** Checking a property on 0..25 *)

Lemma Zrange_In (n : nat) (k : Z) : 0 <= k < Z.of_nat n -> In k (Zrange n).
Proof.
  intros H. unfold Zrange.
  replace k with (Z.of_nat (Z.to_nat k)) by lia.
  apply in_map, in_seq. lia.
Qed.

Lemma all26_spec (f : Z -> bool) :
  all26 f = true -> forall k, 0 <= k <= 25 -> f k = true.
Proof.
  unfold all26. intros H k Hk.
  rewrite forallb_forall in H. apply H, Zrange_In. simpl. lia.
Qed.

(** ** Stepping *)

Lemma positions_three (s : EnigmaState) :
  List.length (positions s) = 3%nat ->
  exists p0 p1 p2, positions s = [p0; p1; p2].
Proof.
  destruct (positions s) as [|p0 [|p1 [|p2 [|? ?]]]]; simpl; try discriminate.
  intros _. now exists p0, p1, p2.
Qed.

(** What [step_rotors] does to the three positions: the right position
    always advances; the middle one advances when it is at
    [notch_positions[1]] or the right one is at [notch_positions[0]]; the
    left one advances when the middle one is at [notch_positions[1]]. *)
Lemma step_rotors_positions (s : EnigmaState) (p0 p1 p2 : Z) :
  positions s = [p0; p1; p2] ->
  positions (step_rotors s) =
    [ (p0 + 1) mod 26;
      if (p1 =? notch s 1) || (p0 =? notch s 0) then (p1 + 1) mod 26 else p1;
      if p1 =? notch s 1 then (p2 + 1) mod 26 else p2 ].
Proof.
  intros H. unfold step_rotors, assign_pos, set_positions, pos, notch.
  rewrite H. simpl.
  destruct (p1 =? nth 1 (notch_positions s) 0); simpl.
  - now rewrite !mod_positive_mod.
  - destruct (p0 =? nth 0 (notch_positions s) 0); simpl;
      rewrite ?H; simpl; now rewrite !mod_positive_mod.
Qed.

Lemma step_rotors_frame (s : EnigmaState) :
  rotors (step_rotors s) = rotors s /\
  notch_positions (step_rotors s) = notch_positions s /\
  plugboard (step_rotors s) = plugboard s.
Proof.
  unfold step_rotors, assign_pos, set_positions.
  destruct (pos s 1 =? notch s 1); [|destruct (pos s 0 =? notch s 0)];
    simpl; auto.
Qed.

(** Stepping keeps any property of the positions that holds on 0..25. *)
Lemma step_rotors_Forall (P : Z -> Prop) (s : EnigmaState) :
  (forall x, in_range x -> P x) ->
  List.length (positions s) = 3%nat ->
  Forall P (positions s) ->
  List.length (positions (step_rotors s)) = 3%nat /\
  Forall P (positions (step_rotors s)).
Proof.
  intros HP Hl Hr. destruct (positions_three s Hl) as (p0 & p1 & p2 & Hp).
  rewrite (step_rotors_positions s p0 p1 p2 Hp). rewrite Hp in Hr.
  inversion_clear Hr as [|? ? H0 Hr']. inversion_clear Hr' as [|? ? H1 Hr''].
  inversion_clear Hr'' as [|? ? H2 _].
  assert (Hm : forall x, P (x mod 26)).
  { intros x. apply HP. unfold in_range.
    pose proof (Z.mod_pos_bound x 26). lia. }
  split; [reflexivity|].
  repeat constructor;
    repeat match goal with |- context [if ?b then _ else _] => destruct b end;
    auto.
Qed.

Lemma step_rotors_in_range (s : EnigmaState) :
  List.length (positions s) = 3%nat ->
  Forall in_range (positions s) ->
  Forall in_range (positions (step_rotors s)).
Proof.
  intros Hl Hr. now apply (step_rotors_Forall in_range s).
Qed.

(** C1 (defect).  The right slot holds rotor III, whose notch is V = 21, but
    [step_rotors] tests the right position against [notch_positions[0]] = 16,
    the notch of rotor I.  From the positions A A V (left, middle, right) one
    step leaves the middle rotor where it was; from A A Q it advances it. *)
Theorem step_rotors_right_notch_is_rotor_I :
  (st <- set_rotor_positions init_enigma (Some (chars "AAV")) ;;
   Ok (positions st, positions (step_rotors st))) = Ok ([21; 0; 0], [22; 0; 0])
  /\
  (st <- set_rotor_positions init_enigma (Some (chars "AAQ")) ;;
   Ok (positions st, positions (step_rotors st))) = Ok ([16; 0; 0], [17; 1; 0]).
Proof. split; vm_compute; reflexivity. Qed.

(** ** Rotor traversal *)

Lemma encode_through_rotor_wired (s : EnigmaState) k r p d :
  rotors s = rotors init_enigma ->
  encode_through_rotor k r p d s = encode_through_rotor k r p d init_enigma.
Proof.
  intros H. unfold encode_through_rotor, wiring. now rewrite H.
Qed.

Lemma encode_through_rotor_reverse (s : EnigmaState) k r p d :
  d <> 0 -> encode_through_rotor k r p d s = encode_through_rotor k r p 1 s.
Proof.
  intros H. unfold encode_through_rotor.
  destruct (Z.eqb_spec d 0); [contradiction | reflexivity].
Qed.

Lemma rotor_agrees_all :
  forallb (fun r => all26 (fun k => all26 (rotor_agrees r k))) (seq 0 4) = true.
Proof. vm_compute. reflexivity. Qed.

Lemma rotor_index_cases (r : nat) : (r <= 3)%nat -> In r (seq 0 4).
Proof. intros H. apply in_seq. lia. Qed.

(** C5.  On the machine's wirings, for [k] and [p] in 0..25 and each of the
    four wiring tables, [encode_through_rotor] computes
    (W[(k+p) mod 26] - p) mod 26 forwards and (W'[(k+p) mod 26] - p) mod 26
    in reverse, where W is the table's permutation and W' its inverse; both
    results lie in 0..25. *)
Theorem encode_through_rotor_spec (s : EnigmaState) (k p d : Z) (r : nat) :
  rotors s = rotors init_enigma ->
  0 <= k <= 25 -> 0 <= p <= 25 -> (r <= 3)%nat -> d <> 0 ->
  encode_through_rotor k r p 0 s = (spec_W r ((k + p) mod 26) - p) mod 26 /\
  encode_through_rotor k r p d s = (spec_W_inv r ((k + p) mod 26) - p) mod 26 /\
  0 <= encode_through_rotor k r p 0 s <= 25 /\
  0 <= encode_through_rotor k r p d s <= 25 /\
  spec_W_inv r (spec_W r k) = k /\ spec_W r (spec_W_inv r k) = k.
Proof.
  intros Hw Hk Hp Hr Hd.
  rewrite (encode_through_rotor_reverse s k r p d Hd).
  rewrite !(encode_through_rotor_wired s) by assumption.
  pose proof rotor_agrees_all as H.
  rewrite forallb_forall in H. specialize (H r (rotor_index_cases r Hr)).
  pose proof (all26_spec _ (all26_spec _ H k Hk) p Hp) as Hc.
  unfold rotor_agrees in Hc.
  rewrite !andb_true_iff, !Z.eqb_eq in Hc.
  destruct Hc as [[[Hf Hv] Hi1] Hi2].
  fold (rotor_forward r p k). fold (rotor_reverse r p k).
  rewrite Hf, Hv. unfold rotor_forward, rotor_reverse.
  pose proof (Z.mod_pos_bound (spec_W r ((k + p) mod 26) - p) 26).
  pose proof (Z.mod_pos_bound (spec_W_inv r ((k + p) mod 26) - p) 26).
  repeat split; try assumption; lia.
Qed.

Lemma encode_through_rotor_spec_witness :
  encode_through_rotor 0 2 1 0 init_enigma = 2 /\
  encode_through_rotor 3 0 0 1 init_enigma = 6.
Proof.
  destruct (encode_through_rotor_spec init_enigma 0 1 1 2) as (H & _);
    [reflexivity | lia | lia | lia | lia |].
  destruct (encode_through_rotor_spec init_enigma 3 0 1 0) as (_ & H' & _);
    [reflexivity | lia | lia | lia | lia |].
  split; [rewrite H | rewrite H']; reflexivity.
Defined.

Lemma wiring_wired (s : EnigmaState) (r : nat) :
  rotors s = rotors init_enigma -> wiring s r = wiring init_enigma r.
Proof. intros H. unfold wiring. now rewrite H. Qed.

Lemma reads_safe_all :
  forallb (fun d =>
    forallb (fun r => all26 (fun k => all26 (reads_safe d r k))) (seq 0 4))
    [0; 1] = true.
Proof. vm_compute. reflexivity. Qed.

Lemma encode_through_rotor_reads_wired (s : EnigmaState) k r p d :
  rotors s = rotors init_enigma ->
  encode_through_rotor_reads k r p d s =
    encode_through_rotor_reads k r p (if d =? 0 then 0 else 1) init_enigma.
Proof.
  intros H. unfold encode_through_rotor_reads, wiring. rewrite H.
  destruct (d =? 0); reflexivity.
Qed.

Lemma in25_range (i : Z) : in25 i = true -> 0 <= i <= 25.
Proof. unfold in25. rewrite andb_true_iff, !Z.leb_le. tauto. Qed.

Lemma in25_Forall (l : list Z) :
  forallb in25 l = true -> Forall (fun i => 0 <= i <= 25) l.
Proof.
  rewrite forallb_forall, Forall_forall. intros H i Hi.
  apply in25_range, H, Hi.
Qed.

(** C9.  On the machine's wirings, for [k] and [p] in 0..25, each of the
    four wiring tables and either direction, one call of
    [encode_through_rotor] reads the 27-character wiring array and the
    27-character alphabet array only at indices in 0..25 (the direct read
    and every read of its [idx] lookup), the lookup finds its character, at
    an index in 0..25 and so never -1, and the value returned is in
    0..25. *)
Theorem encode_through_rotor_safe (s : EnigmaState) (k p d : Z) (r : nat) :
  rotors s = rotors init_enigma ->
  0 <= k <= 25 -> 0 <= p <= 25 -> (r <= 3)%nat ->
  let t := encode_through_rotor_reads k r p d s in
  returned t = encode_through_rotor k r p d s /\
  wiring_reads t <> [] /\ Forall (fun i => 0 <= i <= 25) (wiring_reads t) /\
  alphabet_reads t <> [] /\ Forall (fun i => 0 <= i <= 25) (alphabet_reads t) /\
  lookup t <> -1 /\ 0 <= lookup t <= 25 /\
  0 <= returned t <= 25 /\
  List.length (wiring s r) = 27%nat /\ List.length ALPHABET = 27%nat.
Proof.
  intros Hw Hk Hp Hr t. unfold t. clear t.
  assert (Hlen : List.length (wiring s r) = 27%nat).
  { rewrite (wiring_wired s r Hw).
    destruct r as [|[|[|[|r]]]]; try reflexivity; lia. }
  assert (He : encode_through_rotor k r p d s
               = encode_through_rotor k r p (if d =? 0 then 0 else 1) init_enigma).
  { rewrite (encode_through_rotor_wired s k r p d Hw).
    destruct (Z.eqb_spec d 0) as [-> | Hd]; [reflexivity|].
    now apply encode_through_rotor_reverse. }
  rewrite He, (encode_through_rotor_reads_wired s k r p d Hw).
  pose proof reads_safe_all as H. rewrite forallb_forall in H.
  assert (Hd : In (if d =? 0 then 0 else 1) [0; 1]).
  { destruct (d =? 0); [now left | right; now left]. }
  specialize (H _ Hd). rewrite forallb_forall in H.
  specialize (H r (rotor_index_cases r Hr)).
  pose proof (all26_spec _ (all26_spec _ H k Hk) p Hp) as Hc.
  unfold reads_safe in Hc.
  set (t := encode_through_rotor_reads k r p (if d =? 0 then 0 else 1)
              init_enigma) in *.
  rewrite !andb_true_iff, !negb_true_iff, Z.eqb_eq, Z.eqb_neq in Hc.
  destruct Hc as (((((((Hwr & Har) & Hwn) & Han) & Hl1) & Hl2) & Hres) & Heq).
  rewrite <- Heq.
  split; [reflexivity|].
  split; [intros E; rewrite E in Hwn; discriminate Hwn|].
  split; [now apply in25_Forall|].
  split; [intros E; rewrite E in Han; discriminate Han|].
  split; [now apply in25_Forall|].
  split; [exact Hl1|]. split; [now apply in25_range|].
  split; [now apply in25_range|].
  split; [exact Hlen | reflexivity].
Qed.

Lemma encode_through_rotor_safe_witness :
  Forall (fun i => 0 <= i <= 25)
    (alphabet_reads (encode_through_rotor_reads 7 3 25 0 init_enigma)) /\
  0 <= encode_through_rotor 7 3 25 0 init_enigma <= 25.
Proof.
  destruct (encode_through_rotor_safe init_enigma 7 25 0 3)
    as (He & _ & _ & _ & Ha & _ & _ & Hr & _);
    [reflexivity | lia | lia | lia |].
  split; [exact Ha|]. rewrite <- He. exact Hr.
Defined.

(** ** The enciphering loop *)

(** C6.  From A A A with no plugboard, AAAAA enciphers to BDZGO. *)
Theorem run_enigma_AAAAA :
  (st <- set_rotor_positions init_enigma (Some (chars "AAA")) ;;
   r <- run_enigma st (chars "AAAAA") ;;
   Ok (fst r)) = Ok (chars "BDZGO")
  /\
  main_with_options [chars "-p"; chars "AAA"] (chars "AAAAA") = Ok (chars "BDZGO").
Proof. split; vm_compute; reflexivity. Qed.

Lemma not_upper_to_upper (b : Z) :
  not_upper (to_upper b) = true -> to_upper b = b.
Proof.
  unfold to_upper, not_upper, is_lower.
  destruct (97 <=? b) eqn:E1; destruct (b <=? 122) eqn:E2; simpl; auto.
  rewrite orb_true_iff, Z.ltb_lt, Z.gtb_lt.
  apply Z.leb_le in E1, E2. lia.
Qed.

Lemma run_enigma_char_passes (s : EnigmaState) (b : Z) :
  is_byte b ->
  not_upper (to_upper b) = true ->
  run_enigma_char s b = Ok (b, s).
Proof.
  intros Hb Hn. unfold run_enigma_char.
  rewrite Hn, (not_upper_to_upper b Hn).
  unfold putchar. rewrite Z.mod_small by (unfold is_byte in Hb; lia).
  reflexivity.
Qed.

(** C7.  A byte that is not a letter after folding is written unchanged and
    the whole state (positions, wirings, notches, plugboard) is left as it
    was. *)
Theorem run_enigma_char_non_letter (s : EnigmaState) (b : Z) :
  is_byte b ->
  not_upper (to_upper b) = true ->
  run_enigma_char s b = Ok (b, s).
Proof.
  intros Hb Hn. unfold run_enigma_char, putchar.
  rewrite Hn, (not_upper_to_upper b Hn).
  destruct Hb as [Hlo Hhi].
  now rewrite Z.mod_small by lia.
Qed.

Lemma run_enigma_char_non_letter_witness :
  run_enigma_char init_enigma 32 = Ok (32, init_enigma).
Proof.
  apply (run_enigma_char_non_letter init_enigma 32);
    [unfold is_byte; lia | reflexivity].
Defined.

(** ** Configuration *)

(** C8 (defect).  [set_rotor_positions] folds a copy of each character to
    uppercase for its test but stores the unfolded character minus 'A': the
    accepted string abc leaves the positions 34, 33, 32 (right, middle,
    left), outside 0..25. *)
Theorem set_rotor_positions_lowercase_out_of_range :
  (st <- set_rotor_positions init_enigma (Some (chars "abc")) ;;
   Ok (positions st)) = Ok [34; 33; 32].
Proof. vm_compute. reflexivity. Qed.

(** C10 (defect).  With the plugboard string A the terminating NUL is at
    index 1; for the input B the scan moves its pointer to index 2 and reads
    there.  With a string of 255 letters the pointer reaches index 256 and
    the read falls outside the 256-character array. *)
Theorem apply_plugboard_scans_past_terminator :
  (st <- set_plugboard init_enigma (Some (chars "A")) ;;
   Ok (firstn 3 (plugboard st), apply_plugboard 66 (plugboard st)))
    = Ok ([65; 0; 0], Returned 66 [2; 2; 1; 0; 0]%nat)
  /\
  (st <- set_plugboard init_enigma (Some (repeat 65 255)) ;;
   Ok (List.length (plugboard st),
       match apply_plugboard 66 (plugboard st) with
       | Returned _ _ => None
       | OutOfBounds reads => hd_error reads
       end)) = Ok (256%nat, Some 256%nat).
Proof. split; vm_compute; reflexivity. Qed.

(** C3 as stated fails: the self-pair AA is a BadPlugboard of the
    specification and [set_plugboard] accepts it. *)
Lemma set_plugboard_accepts_self_pair :
  ~ (forall st cfg,
       spec_BadPlugboard cfg = true -> set_plugboard st (Some cfg) = Exit 1).
Proof.
  intros H. specialize (H init_enigma (chars "AA") eq_refl).
  vm_compute in H. discriminate H.
Qed.

(** C3 (amended).  [set_plugboard] rejects, with exit status 1, exactly the
    strings of more than 255 characters; given as the -b option such a
    string ends the program before any output.  Every other string is
    stored, its lowercase letters folded to uppercase. *)
Theorem set_plugboard_rejects_too_long (st : EnigmaState) (cfg : list Z) :
  (set_plugboard st (Some cfg) = Exit 1 <-> (255 < List.length cfg)%nat) /\
  ((255 < List.length cfg)%nat ->
     forall input, main_with_options [chars "-b"; cfg] input = Exit 1) /\
  ((List.length cfg <= 255)%nat ->
     set_plugboard st (Some cfg) =
       Ok (set_plugboard_array st
             (upcase_string (SAFE_STRCPY (plugboard st) cfg MAX_PLUGBOARD_LEN)))).
Proof.
  unfold set_plugboard, MAX_PLUGBOARD_LEN.
  destruct (Nat.leb_spec 256 (List.length cfg)) as [Hlong | Hshort].
  - split; [split; [lia | reflexivity]|]. split; [|lia].
    intros _ input. unfold main_with_options, parse_arguments.
    cbn [parse_loop]. 
    replace (streq (chars "-b") "-h" || streq (chars "-b") "--help") with false by reflexivity.
    replace (streq (chars "-b") "-s" || streq (chars "-b") "--show") with false by reflexivity.
    replace (streq (chars "-b") "-p" || streq (chars "-b") "--positions") with false by reflexivity.
    replace (streq (chars "-b") "-b" || streq (chars "-b") "--plugboard") with true by reflexivity.
    unfold set_plugboard, MAX_PLUGBOARD_LEN.
    destruct (Nat.leb_spec 256 (List.length cfg)); [reflexivity | lia].
  - split; [split; [discriminate | lia]|]. split; [lia|]. reflexivity.
Qed.

Lemma set_plugboard_rejects_too_long_witness :
  main_with_options [chars "-b"; repeat 65 256] (chars "HELLO") = Exit 1 /\
  set_plugboard init_enigma (Some (chars "ab")) =
    Ok (set_plugboard_array init_enigma
          (upcase_string (SAFE_STRCPY (plugboard init_enigma) (chars "ab")
                            MAX_PLUGBOARD_LEN))).
Proof.
  split.
  - apply (set_plugboard_rejects_too_long init_enigma (repeat 65 256)).
    rewrite repeat_length. lia.
  - apply (set_plugboard_rejects_too_long init_enigma (chars "ab")).
    simpl. lia.
Defined.

(** ** The rotor stack is an involution without fixed point *)

Lemma encode_through_rotor_range (s : EnigmaState) k r p d :
  0 <= encode_through_rotor k r p d s <= 25.
Proof.
  unfold encode_through_rotor. destruct (d =? 0); apply mod_positive_range.
Qed.

Lemma rotor_inverts_all :
  forallb (fun r => all26 (fun k => all26 (rotor_inverts r k))) (seq 0 3) = true.
Proof. vm_compute. reflexivity. Qed.

(** Only the residue of the position modulo 26 matters. *)
Lemma encode_through_rotor_position (s : EnigmaState) k r p d :
  encode_through_rotor k r p d s = encode_through_rotor k r (p mod 26) d s.
Proof.
  unfold encode_through_rotor.
  rewrite !mod_positive_mod, Zplus_mod_idemp_r.
  destruct (d =? 0); now rewrite Zminus_mod_idemp_r.
Qed.

Lemma rotor_round_trip (s : EnigmaState) (r : nat) (k p : Z) :
  rotors s = rotors init_enigma ->
  (r <= 2)%nat -> 0 <= k <= 25 ->
  encode_through_rotor (encode_through_rotor k r p 0 s) r p 1 s = k /\
  encode_through_rotor (encode_through_rotor k r p 1 s) r p 0 s = k.
Proof.
  intros Hw Hr Hk.
  pose proof (encode_through_rotor_position s k r p 0) as E0.
  pose proof (encode_through_rotor_position s k r p 1) as E1.
  pose proof (encode_through_rotor_position s
                (encode_through_rotor k r p 0 s) r p 1) as E2.
  pose proof (encode_through_rotor_position s
                (encode_through_rotor k r p 1 s) r p 0) as E3.
  assert (Hq : 0 <= p mod 26 <= 25) by (pose proof (Z.mod_pos_bound p 26); lia).
  revert E0 E1 E2 E3 Hq. generalize (p mod 26). intros q E0 E1 E2 E3 Hq.
  pose proof (encode_through_rotor_wired s k r q 0 Hw) as W0.
  pose proof (encode_through_rotor_wired s k r q 1 Hw) as W1.
  pose proof (encode_through_rotor_wired s
                (encode_through_rotor k r q 0 init_enigma) r q 1 Hw) as W2.
  pose proof (encode_through_rotor_wired s
                (encode_through_rotor k r q 1 init_enigma) r q 0 Hw) as W3.
  pose proof rotor_inverts_all as H. rewrite forallb_forall in H.
  assert (Hin : In r (seq 0 3)) by (apply in_seq; lia).
  pose proof (all26_spec _ (all26_spec _ (H r Hin) k Hk) q Hq) as Hc.
  unfold rotor_inverts in Hc. rewrite andb_true_iff, !Z.eqb_eq in Hc.
  destruct Hc as [C1 C2].
  split; congruence.
Qed.

Lemma reflector_swaps_all : all26 reflector_swaps = true.
Proof. vm_compute. reflexivity. Qed.

Lemma reflector_spec (s : EnigmaState) (k : Z) :
  rotors s = rotors init_enigma -> 0 <= k <= 25 ->
  0 <= reflector s k <= 25 /\
  reflector s k <> k /\
  reflector s (reflector s k) = k.
Proof.
  intros Hw Hk. unfold reflector. rewrite (wiring_wired s 3 Hw).
  pose proof (all26_spec _ reflector_swaps_all k Hk) as Hc.
  unfold reflector_swaps, reflector in Hc.
  rewrite !andb_true_iff, negb_true_iff, !Z.leb_le, Z.eqb_eq, Z.eqb_neq in Hc.
  intuition.
Qed.

Section RotorStack.

Variable s : EnigmaState.
Hypothesis wired : rotors s = rotors init_enigma.

Local Abbreviation fwd := (rotor_fwd s).
Local Abbreviation bwd := (rotor_bwd s).

Lemma rotor_stack_unfold (x : Z) :
  rotor_stack s x =
    bwd 2 0 (bwd 1 1 (bwd 0 2 (reflector s (fwd 0 2 (fwd 1 1 (fwd 2 0 x)))))).
Proof. unfold rotor_stack, rotor_fwd, rotor_bwd. reflexivity. Qed.

Lemma fwd_range r i k : 0 <= fwd r i k <= 25.
Proof. apply encode_through_rotor_range. Qed.

Lemma bwd_range r i k : 0 <= bwd r i k <= 25.
Proof. apply encode_through_rotor_range. Qed.

Lemma bwd_fwd r i k :
  (r <= 2)%nat -> 0 <= k <= 25 -> bwd r i (fwd r i k) = k.
Proof.
  intros Hr Hk. unfold rotor_bwd, rotor_fwd.
  exact (proj1 (rotor_round_trip s r k (pos s i) wired Hr Hk)).
Qed.

Lemma fwd_bwd r i k :
  (r <= 2)%nat -> 0 <= k <= 25 -> fwd r i (bwd r i k) = k.
Proof.
  intros Hr Hk. unfold rotor_bwd, rotor_fwd.
  exact (proj2 (rotor_round_trip s r k (pos s i) wired Hr Hk)).
Qed.

Lemma rotor_stack_range (x : Z) : 0 <= rotor_stack s x <= 25.
Proof. rewrite rotor_stack_unfold. apply bwd_range. Qed.

Lemma rotor_stack_involutive (x : Z) :
  0 <= x <= 25 -> rotor_stack s (rotor_stack s x) = x.
Proof.
  intros Hx. rewrite !rotor_stack_unfold.
  rewrite (fwd_bwd 2 0) by (auto using bwd_range; lia).
  rewrite (fwd_bwd 1 1) by (auto using bwd_range; lia).
  rewrite (fwd_bwd 0 2)
    by (auto; try lia; apply reflector_spec; auto using fwd_range).
  destruct (reflector_spec s (fwd 0 2 (fwd 1 1 (fwd 2 0 x))) wired
              (fwd_range _ _ _)) as (_ & _ & Hrr).
  rewrite Hrr.
  rewrite (bwd_fwd 0 2) by (auto using fwd_range; lia).
  rewrite (bwd_fwd 1 1) by (auto using fwd_range; lia).
  apply bwd_fwd; auto; lia.
Qed.

Lemma rotor_stack_moves (x : Z) : 0 <= x <= 25 -> rotor_stack s x <> x.
Proof.
  intros Hx Hfix. rewrite rotor_stack_unfold in Hfix.
  set (y := fwd 0 2 (fwd 1 1 (fwd 2 0 x))) in *.
  assert (Hy : 0 <= y <= 25) by apply fwd_range.
  destruct (reflector_spec s y wired Hy) as (Hr & Hne & _).
  apply Hne.
  apply (f_equal (fwd 2 0)) in Hfix.
  rewrite (fwd_bwd 2 0) in Hfix by (auto using bwd_range; lia).
  apply (f_equal (fwd 1 1)) in Hfix.
  rewrite (fwd_bwd 1 1) in Hfix by (auto using bwd_range; lia).
  apply (f_equal (fwd 0 2)) in Hfix.
  rewrite (fwd_bwd 0 2) in Hfix by (auto; lia).
  exact Hfix.
Qed.

End RotorStack.

(** ** The plugboard of a valid state is an involution on letters *)

Lemma existsb_eqb_In (x : Z) (l : list Z) :
  existsb (Z.eqb x) l = true <-> In x l.
Proof.
  rewrite existsb_exists. split.
  - intros (y & Hy & E). apply Z.eqb_eq in E. now subst.
  - intros H. exists x. split; [assumption | apply Z.eqb_refl].
Qed.

Lemma distinct_cons (x : Z) (l : list Z) :
  distinct (x :: l) = true -> ~ In x l /\ distinct l = true.
Proof.
  simpl. rewrite andb_true_iff, negb_true_iff. intros [H1 H2].
  split; [|assumption]. intros Hin. apply existsb_eqb_In in Hin. congruence.
Qed.

Lemma is_upper_range (c : Z) : is_upper c = true <-> 65 <= c <= 90.
Proof. unfold is_upper. rewrite andb_true_iff, !Z.leb_le. tauto. Qed.

Lemma pairs_ok_cons (a b : Z) (n : nat) (r : list (Z * Z * nat)) :
  pairs_ok ((a, b, n) :: r) = true ->
  65 <= a <= 90 /\ 65 <= b <= 90 /\ a <> b /\
  ~ In a (pair_letters r) /\ ~ In b (pair_letters r) /\ pairs_ok r = true.
Proof.
  unfold pairs_ok. cbn [pair_letters forallb].
  rewrite !andb_true_iff. intros [(Ha & Hb & Hr) Hd].
  apply distinct_cons in Hd as [Hna Hd].
  apply distinct_cons in Hd as [Hnb Hd].
  apply is_upper_range in Ha, Hb.
  assert (Hab : a <> b) by (intros ->; apply Hna; now left).
  assert (Hna' : ~ In a (pair_letters r)) by (intros Hin; apply Hna; now right).
  rewrite Hr, Hd. auto 10.
Qed.

Lemma skip_spaces_run {R : Type} (k : list Z -> nat -> list nat -> R)
    (oob : list nat -> R) (n : nat) (x : Z) (m : list Z) :
  x <> 32 ->
  forall q lg, exists lg',
    skip_spaces k oob (repeat 32 n ++ x :: m) q lg = k (x :: m) (n + q)%nat lg'.
Proof.
  intros Hx. induction n as [|n IH]; intros q lg; cbn [repeat app skip_spaces].
  - destruct (Z.eqb_spec x 32); [contradiction|]. eexists; reflexivity.
  - rewrite Z.eqb_refl.
    destruct (IH (S q) (q :: lg)) as [lg' H]. exists lg'.
    rewrite H. f_equal. lia.
Qed.

Lemma pairs_text_head (r : list (Z * Z * nat)) (rest : list Z) :
  pairs_ok r = true ->
  exists x m, pairs_text r ++ 0 :: rest = x :: m /\ x <> 32.
Proof.
  destruct r as [|[[a b] n] r'].
  - intros _. exists 0, rest. split; [reflexivity | lia].
  - intros Hok. apply pairs_ok_cons in Hok as (Ha & _).
    cbn [pairs_text app]. eexists a, _. split; [reflexivity | lia].
Qed.

Lemma plug_scan_pairs (c : Z) (ps : list (Z * Z * nat)) (rest : list Z) :
  pairs_ok ps = true ->
  forall ptr lg, exists lg',
    plug_scan c (pairs_text ps ++ 0 :: rest) ptr lg = Returned (swap ps c) lg'.
Proof.
  induction ps as [|[[a b] n] r IH]; intros Hok ptr lg.
  - cbn. eexists; reflexivity.
  - apply pairs_ok_cons in Hok as (Ha & Hb & Hab & Hna & Hnb & Hr).
    cbn [pairs_text swap app plug_scan]. rewrite <- app_assoc.
    destruct (Z.eqb_spec a 0); [lia|].
    destruct (Z.eqb_spec b 0); [lia|].
    destruct (Z.eqb_spec c a); cbn [andb negb].
    + eexists; reflexivity.
    + destruct (Z.eqb_spec c b).
      * eexists; reflexivity.
      * destruct (pairs_text_head r rest Hr) as (x & m & Hxm & Hx).
        rewrite Hxm.
        destruct (skip_spaces_run (plug_scan c) OutOfBounds n x m Hx
                    (S (S ptr)) (S ptr :: ptr :: lg)) as [lg' H].
        rewrite H, <- Hxm. apply IH, Hr.
Qed.

Lemma apply_plugboard_pairs (c : Z) (ps : list (Z * Z * nat)) (rest : list Z) :
  pairs_ok ps = true ->
  plugged (apply_plugboard c (pairs_text ps ++ 0 :: rest)) = Ok (swap ps c).
Proof.
  intros Hok. unfold apply_plugboard.
  destruct (plug_scan_pairs c ps rest Hok 0%nat [0%nat]) as [lg' H].
  destruct ps as [|[[a b] n] r].
  - reflexivity.
  - apply pairs_ok_cons in Hok as (Ha & _).
    cbn [pairs_text app] in *.
    destruct (Z.eqb_spec a 0); [lia|].
    now rewrite H.
Qed.

Lemma swap_cases (ps : list (Z * Z * nat)) (c : Z) :
  swap ps c = c \/ In (swap ps c) (pair_letters ps).
Proof.
  induction ps as [|[[a b] n] r IH]; cbn [swap pair_letters].
  - now left.
  - destruct (c =? a); [right; right; now left|].
    destruct (c =? b); [right; now left|].
    destruct IH as [IH | IH]; [now left | right; right; now right].
Qed.

Lemma swap_upper (ps : list (Z * Z * nat)) (c : Z) :
  pairs_ok ps = true -> 65 <= c <= 90 -> 65 <= swap ps c <= 90.
Proof.
  induction ps as [|[[a b] n] r IH]; intros Hok Hc; cbn [swap].
  - assumption.
  - apply pairs_ok_cons in Hok as (Ha & Hb & _ & _ & _ & Hr).
    destruct (c =? a); [assumption|].
    destruct (c =? b); [assumption|]. now apply IH.
Qed.

Lemma swap_involutive (ps : list (Z * Z * nat)) (c : Z) :
  pairs_ok ps = true -> swap ps (swap ps c) = c.
Proof.
  induction ps as [|[[a b] n] r IH]; intros Hok; cbn [swap].
  - reflexivity.
  - apply pairs_ok_cons in Hok as (Ha & Hb & Hab & Hna & Hnb & Hr).
    destruct (Z.eqb_spec c a) as [-> | Hca].
    + destruct (Z.eqb_spec b a); [congruence|]. now rewrite Z.eqb_refl.
    + destruct (Z.eqb_spec c b) as [-> | Hcb].
      * now rewrite Z.eqb_refl.
      * destruct (swap_cases r c) as [E | Hin].
        -- rewrite E.
           destruct (Z.eqb_spec c a); [contradiction|].
           destruct (Z.eqb_spec c b); [contradiction|]. exact E.
        -- destruct (Z.eqb_spec (swap r c) a) as [E | _];
             [rewrite E in Hin; contradiction|].
           destruct (Z.eqb_spec (swap r c) b) as [E | _];
             [rewrite E in Hin; contradiction|].
           now apply IH.
Qed.

(** ** The substitution pipeline on a valid state *)

Lemma valid_state_configured (s : EnigmaState) :
  valid_state s -> configured_state s.
Proof. now intros [H _]. Qed.

Lemma step_rotors_configured (s : EnigmaState) :
  configured_state s -> configured_state (step_rotors s).
Proof.
  intros (Hw & Hn & (Hl & Hf) & Hpb).
  destruct (step_rotors_frame s) as (Ew & En & Ep).
  assert (Hs : forall x, in_range x -> stored_position x) by (intros x Hx; now left).
  destruct (step_rotors_Forall stored_position s Hs Hl Hf) as (Hl' & Hf').
  unfold configured_state, plugboard_paired. rewrite Ew, En, Ep. auto.
Qed.

Lemma step_rotors_valid (s : EnigmaState) :
  valid_state s -> valid_state (step_rotors s).
Proof.
  intros [Hc Hr]. split; [now apply step_rotors_configured|].
  destruct Hc as (_ & _ & (Hl & _) & _). now apply step_rotors_in_range.
Qed.

Lemma substitute_unfold (s : EnigmaState) (c : Z) :
  substitute s c =
    (c1 <- plugged (apply_plugboard c (plugboard s)) ;;
     plugged (apply_plugboard (rotor_stack s (c1 - 65) + 65) (plugboard s))).
Proof. unfold substitute, rotor_stack, reflector. reflexivity. Qed.

Lemma substitute_configured (s : EnigmaState) (x : Z) :
  configured_state s -> 65 <= x <= 90 ->
  exists y,
    substitute s x = Ok y /\ 65 <= y <= 90 /\ y <> x /\ substitute s y = Ok x.
Proof.
  intros (Hw & _ & _ & ps & rest & Hok & Hpb) Hx.
  pose proof (swap_upper ps x Hok Hx) as Ha.
  set (a := swap ps x) in *.
  set (k := a - 65).
  assert (Hk : 0 <= k <= 25) by (unfold k; lia).
  pose proof (rotor_stack_range s k) as Hk'.
  pose proof (rotor_stack_involutive s Hw k Hk) as Hinv.
  pose proof (rotor_stack_moves s Hw k Hk) as Hmov.
  set (k' := rotor_stack s k) in *.
  assert (Hb : 65 <= k' + 65 <= 90) by lia.
  pose proof (swap_upper ps (k' + 65) Hok Hb) as Hy.
  exists (swap ps (k' + 65)).
  rewrite !substitute_unfold, Hpb, !apply_plugboard_pairs by assumption.
  cbn [bind]. rewrite !apply_plugboard_pairs by assumption.
  fold a. fold k. fold k'.
  repeat split; try lia.
  - intros E. apply (f_equal (swap ps)) in E.
    rewrite swap_involutive in E by assumption. fold a in E. lia.
  - rewrite swap_involutive by assumption.
    replace (k' + 65 - 65) with k' by lia. rewrite Hinv.
    unfold k. replace (a - 65 + 65) with a by lia.
    unfold a. now rewrite swap_involutive.
Qed.

Lemma init_enigma_valid : valid_state init_enigma.
Proof.
  assert (Hr : Forall in_range (positions init_enigma)).
  { change (positions init_enigma) with [0; 0; 0].
    repeat constructor; unfold in_range; lia. }
  split; [|exact Hr].
  split; [reflexivity|]. split; [reflexivity|]. split.
  - split; [reflexivity|]. eapply Forall_impl; [|exact Hr].
    intros x Hx. now left.
  - exists [], (repeat 0 255). split; reflexivity.
Qed.

Lemma example_state_valid : valid_state example_state.
Proof.
  assert (Hr : Forall in_range (positions example_state)).
  { change (positions example_state) with [25; 24; 23].
    repeat constructor; unfold in_range; lia. }
  split; [|exact Hr].
  split; [reflexivity|]. split; [reflexivity|]. split.
  - split; [reflexivity|]. eapply Forall_impl; [|exact Hr].
    intros x Hx. now left.
  - exists [(65, 66, 1%nat); (67, 68, 0%nat)], (repeat 0 250).
    split; reflexivity.
Qed.

Lemma example_lower_state_configured : configured_state example_lower_state.
Proof.
  split; [reflexivity|]. split; [reflexivity|]. split.
  - split; [reflexivity|].
    change (positions example_lower_state) with [57; 56; 55].
    repeat constructor; unfold stored_position; lia.
  - exists [(65, 66, 1%nat); (67, 68, 0%nat)], (repeat 0 250).
    split; reflexivity.
Qed.

(** C4.  On a valid state, the pipeline plugboard, rotors III II I,
    reflector B, rotors I II III in reverse, plugboard sends every letter to
    a different letter. *)
Theorem substitute_no_fixed_point (s : EnigmaState) (x : Z) :
  valid_state s -> 65 <= x <= 90 ->
  exists y, substitute s x = Ok y /\ 65 <= y <= 90 /\ y <> x.
Proof.
  intros Hv Hx.
  destruct (substitute_configured s x (valid_state_configured s Hv) Hx)
    as (y & Hy & Hr & Hne & _).
  now exists y.
Qed.

Lemma substitute_no_fixed_point_witness :
  exists y, substitute example_state 65 = Ok y /\ 65 <= y <= 90 /\ y <> 65.
Proof.
  apply (substitute_no_fixed_point example_state 65).
  - exact example_state_valid.
  - lia.
Defined.

(** ** The stream *)

Lemma upper_not_lower (y : Z) :
  65 <= y <= 90 -> to_upper y = y /\ not_upper y = false.
Proof.
  intros H. unfold to_upper, is_lower, not_upper.
  destruct (Z.leb_spec 97 y); [lia|]. cbn [andb].
  destruct (Z.ltb_spec y 65); [lia|].
  rewrite Z.gtb_ltb. destruct (Z.ltb_spec 90 y); [lia|]. auto.
Qed.

Lemma not_upper_false (c : Z) : not_upper c = false -> 65 <= c <= 90.
Proof.
  unfold not_upper. rewrite orb_false_iff, Z.gtb_ltb, !Z.ltb_ge. lia.
Qed.

Lemma run_enigma_char_configured (s : EnigmaState) (c : Z) :
  configured_state s -> is_byte c ->
  exists o s',
    run_enigma_char s c = Ok (o, s') /\ configured_state s' /\ is_byte o /\
    run_enigma_char s o = Ok (to_upper c, s') /\
    (not_upper (to_upper c) = true -> o = c).
Proof.
  intros Hv Hc.
  destruct (not_upper (to_upper c)) eqn:E.
  - exists c, s.
    rewrite (run_enigma_char_passes s c Hc E).
    rewrite (not_upper_to_upper c E). auto.
  - pose proof (not_upper_false _ E) as Hu.
    pose proof (step_rotors_configured s Hv) as Hv'.
    destruct (substitute_configured (step_rotors s) (to_upper c) Hv' Hu)
      as (y & Hy & Hr & _ & Hback).
    destruct (upper_not_lower y Hr) as (Ey & Ny).
    exists y, (step_rotors s).
    unfold run_enigma_char. rewrite E, Ey, Ny, Hy, Hback. cbn [bind].
    unfold putchar. rewrite !Z.mod_small by lia.
    split; [reflexivity|]. split; [exact Hv'|].
    split; [unfold is_byte; lia|]. split; [reflexivity | discriminate].
Qed.

Lemma to_upper_id (c : Z) : is_lower c = false -> to_upper c = c.
Proof. unfold to_upper. now intros ->. Qed.

Lemma run_enigma_configured (M : list Z) :
  Forall is_byte M ->
  forall s0, configured_state s0 ->
  exists C s1,
    run_enigma s0 M = Ok (C, s1) /\ configured_state s1 /\
    run_enigma s0 C = Ok (map to_upper M, s1) /\
    List.length C = List.length M /\
    (forall i, (i < List.length M)%nat ->
               not_upper (to_upper (nth i M 0)) = true ->
               nth i C 0 = nth i M 0).
Proof.
  induction 1 as [|c M Hc HM IH]; intros s0 Hv.
  - exists [], s0. cbn [run_enigma map List.length].
    split; [reflexivity|]. split; [assumption|].
    split; [reflexivity|]. split; [reflexivity|].
    intros i Hi. lia.
  - destruct (run_enigma_char_configured s0 c Hv Hc)
      as (o & s' & Hrun & Hv' & Ho & Hback & Hsame).
    destruct (IH s' Hv') as (C & s1 & HC & Hv1 & HCback & Hlen & Hnth).
    exists (o :: C), s1. cbn [run_enigma map List.length].
    rewrite Hrun, Hback. cbn [bind fst snd]. rewrite HC, HCback. cbn [bind fst snd].
    split; [reflexivity|]. split; [assumption|].
    split; [reflexivity|]. split; [now rewrite Hlen|].
    intros [|i] Hi; cbn [nth]; [exact Hsame|]. apply Hnth. lia.
Qed.

(** C2 as stated fails: from A A A with no plugboard the input a gives B,
    and B gives back A, not a. *)
Lemma run_enigma_lowercase_not_recovered :
  ~ (forall s0 M C s1,
       valid_state s0 -> Forall is_byte M ->
       run_enigma s0 M = Ok (C, s1) ->
       exists s2, run_enigma s0 C = Ok (M, s2)).
Proof.
  intros H.
  destruct (H init_enigma [97] [66] (step_rotors init_enigma) init_enigma_valid)
    as [s2 H2].
  - repeat constructor; unfold is_byte; lia.
  - vm_compute. reflexivity.
  - vm_compute in H2. discriminate H2.
Qed.

(** C2 (amended).  From a configured state [s0] (any three positions that
    [set_rotor_positions] stores, any plugboard of disjoint letter pairs),
    every byte stream [M] is enciphered to a stream [C] of the same length
    that agrees with [M] at every non-letter, and enciphering [C] from [s0]
    again gives [M] with its lowercase letters folded to uppercase: [M]
    itself when it has no lowercase letter. *)
Theorem run_enigma_involution (s0 : EnigmaState) (M : list Z) :
  configured_state s0 -> Forall is_byte M ->
  exists C s1,
    run_enigma s0 M = Ok (C, s1) /\
    run_enigma s0 C = Ok (map to_upper M, s1) /\
    (Forall (fun c => is_lower c = false) M -> run_enigma s0 C = Ok (M, s1)) /\
    List.length C = List.length M /\
    (forall i, (i < List.length M)%nat ->
               not_upper (to_upper (nth i M 0)) = true ->
               nth i C 0 = nth i M 0).
Proof.
  intros Hv HM.
  destruct (run_enigma_configured M HM s0 Hv)
    as (C & s1 & HC & _ & Hback & Hlen & Hnth).
  exists C, s1.
  split; [assumption|]. split; [assumption|]. split; [|split; assumption].
  intros Hup. rewrite Hback. do 2 f_equal.
  clear -Hup. induction Hup as [|c M Hc _ IH]; cbn [map].
  - reflexivity.
  - now rewrite IH, (to_upper_id c Hc).
Qed.

Lemma run_enigma_involution_witness :
  exists C s1,
    run_enigma example_lower_state (chars "Hello, World") = Ok (C, s1) /\
    run_enigma example_lower_state C = Ok (chars "HELLO, WORLD", s1).
Proof.
  destruct (run_enigma_involution example_lower_state (chars "Hello, World"))
    as (C & s1 & HC & Hback & _).
  - exact example_lower_state_configured.
  - repeat constructor; unfold is_byte; cbn; lia.
  - exists C, s1. split; [exact HC | exact Hback].
Defined.

(** ** Configuration produces valid states *)

Lemma upcase_string_app (cfg rest : list Z) :
  Forall (fun c => c <> 0) cfg ->
  upcase_string (cfg ++ 0 :: rest) = map to_upper cfg ++ 0 :: rest.
Proof.
  induction 1 as [|c cfg Hc _ IH]; cbn [app map upcase_string].
  - reflexivity.
  - destruct (Z.eqb_spec c 0); [contradiction|]. now rewrite IH.
Qed.

Lemma SAFE_STRCPY_short (dest cfg : list Z) :
  (List.length cfg <= 255)%nat ->
  exists rest, SAFE_STRCPY dest cfg MAX_PLUGBOARD_LEN = cfg ++ 0 :: rest.
Proof.
  intros Hlen. unfold SAFE_STRCPY, MAX_PLUGBOARD_LEN.
  change (256 - 1)%nat with 255%nat.
  rewrite firstn_app, firstn_all2 by lia.
  destruct (255 - List.length cfg)%nat as [|n] eqn:E.
  - exists (skipn 256 dest). cbn [firstn]. now rewrite app_nil_r.
  - assert (Hr : repeat 0 255 = 0 :: repeat 0 254) by reflexivity.
    rewrite Hr. cbn [firstn]. rewrite <- app_assoc. cbn [app].
    eexists. reflexivity.
Qed.

Lemma to_upper_zero (c : Z) : to_upper c <> 0 -> c <> 0.
Proof. intros H ->. now apply H. Qed.

Lemma pairs_text_nonzero (ps : list (Z * Z * nat)) :
  pairs_ok ps = true -> Forall (fun c => c <> 0) (pairs_text ps).
Proof.
  induction ps as [|[[a b] n] r IH]; intros Hok; cbn [pairs_text].
  - constructor.
  - apply pairs_ok_cons in Hok as (Ha & Hb & _ & _ & _ & Hr).
    constructor; [lia|]. constructor; [lia|].
    apply Forall_app. split; [|now apply IH].
    apply Forall_forall. intros x Hx. apply repeat_spec in Hx. lia.
Qed.

(** A plugboard string whose uppercase folding is a text of disjoint
    letter pairs, of at most 255 characters, is accepted and leaves a
    configured state with the same positions. *)
Lemma set_plugboard_configured (st : EnigmaState) (cfg : list Z)
    (ps : list (Z * Z * nat)) :
  configured_state st ->
  pairs_ok ps = true -> map to_upper cfg = pairs_text ps ->
  (List.length cfg <= 255)%nat ->
  exists st',
    set_plugboard st (Some cfg) = Ok st' /\
    positions st' = positions st /\ configured_state st'.
Proof.
  intros (Hw & Hn & Hp & _) Hok Hcfg Hlen.
  unfold set_plugboard, MAX_PLUGBOARD_LEN.
  destruct (Nat.leb_spec 256 (List.length cfg)); [lia|].
  eexists. split; [reflexivity|]. split; [reflexivity|].
  split; [exact Hw|]. split; [exact Hn|]. split; [exact Hp|].
  unfold plugboard_paired. cbn [plugboard set_plugboard_array].
  destruct (SAFE_STRCPY_short (plugboard st) cfg Hlen) as [rest Hcopy].
  fold MAX_PLUGBOARD_LEN. rewrite Hcopy.
  exists ps, rest. split; [assumption|].
  rewrite upcase_string_app, Hcfg; [reflexivity|].
  pose proof (pairs_text_nonzero ps Hok) as Hnz. rewrite <- Hcfg in Hnz.
  rewrite Forall_map in Hnz.
  eapply Forall_impl; [|exact Hnz]. intros c. apply to_upper_zero.
Qed.

Lemma accepted_stored (ch : Z) :
  not_upper (to_upper ch) = false -> stored_position (ch - 65).
Proof.
  intros H. apply not_upper_false in H. revert H.
  unfold to_upper, is_lower, stored_position.
  destruct (Z.leb_spec 97 ch); destruct (Z.leb_spec ch 122); cbn [andb]; lia.
Qed.

(** Every string [set_rotor_positions] accepts leaves a configured state. *)
Lemma set_rotor_positions_configured (st st' : EnigmaState) (p : list Z) :
  configured_state st ->
  set_rotor_positions st (Some p) = Ok st' ->
  configured_state st'.
Proof.
  intros (Hw & Hn & (Hl3 & _) & Hpb).
  destruct (positions_three st Hl3) as (p0 & p1 & p2 & Hp).
  unfold set_rotor_positions.
  destruct p as [|l [|m [|r [|? ?]]]]; try discriminate.
  cbn [List.length Nat.eqb negb firstn existsb].
  destruct (not_upper (to_upper l)) eqn:El; [discriminate|].
  destruct (not_upper (to_upper m)) eqn:Em; [discriminate|].
  destruct (not_upper (to_upper r)) eqn:Er; [discriminate|].
  cbn [orb]. intros H. injection H as <-.
  unfold assign_pos, set_positions, at_index.
  change (Z.to_nat 0) with 0%nat. change (Z.to_nat 1) with 1%nat.
  change (Z.to_nat 2) with 2%nat.
  cbn [positions nth rotors notch_positions plugboard].
  rewrite Hp. cbn [store].
  unfold configured_state, plugboard_paired.
  cbn [positions rotors notch_positions plugboard].
  split; [exact Hw|]. split; [exact Hn|]. split; [|exact Hpb].
  split; [reflexivity|]. auto using accepted_stored.
Qed.

(** Three uppercase letters are accepted as positions and leave a valid
    state, the letters stored left to right in slots 2, 1, 0. *)
Lemma set_rotor_positions_valid (st : EnigmaState) (l m r : Z) :
  configured_state st ->
  65 <= l <= 90 -> 65 <= m <= 90 -> 65 <= r <= 90 ->
  exists st',
    set_rotor_positions st (Some [l; m; r]) = Ok st' /\
    positions st' = [r - 65; m - 65; l - 65] /\ valid_state st'.
Proof.
  intros Hc Hl Hm Hr.
  destruct (set_rotor_positions st (Some [l; m; r])) as [st'| |] eqn:E.
  2, 3: revert E; unfold set_rotor_positions;
    cbn [List.length Nat.eqb negb firstn existsb];
    destruct (upper_not_lower l Hl) as (-> & ->);
    destruct (upper_not_lower m Hm) as (-> & ->);
    destruct (upper_not_lower r Hr) as (-> & ->); discriminate.
  pose proof (set_rotor_positions_configured st st' _ Hc E) as Hc'.
  exists st'. split; [reflexivity|].
  assert (Hpos : positions st' = [r - 65; m - 65; l - 65]).
  { destruct Hc as (_ & _ & (Hl3 & _) & _).
    destruct (positions_three st Hl3) as (p0 & p1 & p2 & Hp).
    revert E. unfold set_rotor_positions.
    cbn [List.length Nat.eqb negb firstn existsb].
    destruct (upper_not_lower l Hl) as (-> & ->).
    destruct (upper_not_lower m Hm) as (-> & ->).
    destruct (upper_not_lower r Hr) as (-> & ->).
    cbn [orb]. intros H. injection H as <-.
    unfold assign_pos, set_positions, at_index.
    change (Z.to_nat 0) with 0%nat. change (Z.to_nat 1) with 1%nat.
    change (Z.to_nat 2) with 2%nat.
    cbn [positions nth]. rewrite Hp. reflexivity. }
  split; [exact Hpos|]. split; [exact Hc'|].
  rewrite Hpos. repeat constructor; unfold in_range; lia.
Qed.

(** * Further properties of the engine *)

(** ** Helpers *)

(** X1.  [mod_positive] returns the residue modulo 26 in 0..25 for every
    integer, negative ones included. *)
Theorem mod_positive_residue (a : Z) :
  mod_positive a = a mod 26 /\ 0 <= mod_positive a <= 25 /\
  mod_positive (a + 26) = mod_positive a /\
  mod_positive (mod_positive a) = mod_positive a.
Proof.
  rewrite !mod_positive_mod.
  pose proof (Z.mod_pos_bound a 26).
  split; [reflexivity|]. split; [lia|]. split.
  - rewrite <- (Z_mod_plus_full a 1 26). f_equal; lia.
  - apply Z.mod_mod. lia.
Qed.

Lemma idx_from_spec (s : list Z) (c n : Z) :
  (idx_from s c n = -1 /\ ~ In c (c_string s)) \/
  (exists pre post,
     c_string s = pre ++ c :: post /\ ~ In c pre /\
     idx_from s c n = n + Z.of_nat (List.length pre)).
Proof.
  revert n. induction s as [|ch p IH]; intros n; cbn [idx_from c_string].
  - left. split; [reflexivity | intros []].
  - destruct (Z.eqb_spec ch 0) as [E0 | N0].
    + left. split; [reflexivity | intros []].
    + destruct (Z.eqb_spec ch c) as [Ec | Nc].
      * right. exists [], (c_string p). subst ch.
        split; [reflexivity|]. split; [intros [] | cbn; lia].
      * destruct (IH (n + 1)) as [[Hm Hn] | (pre & post & Hs & Hpre & Hi)].
        -- left. split; [exact Hm|]. intros [H | H]; [contradiction | auto].
        -- right. exists (ch :: pre), post. rewrite Hs.
           split; [reflexivity|]. split.
           ++ intros [H | H]; [contradiction | auto].
           ++ rewrite Hi. cbn [List.length]. lia.
Qed.

(** X2.  [idx(s, c)] is -1 when [c] does not occur in the string [s] (the
    characters before the first NUL), and otherwise the index of its first
    occurrence.  Searching for NUL itself gives -1. *)
Theorem idx_first_occurrence (s : list Z) (c : Z) :
  ((idx s c = -1 /\ ~ In c (c_string s)) \/
   (exists pre post,
      c_string s = pre ++ c :: post /\ ~ In c pre /\
      idx s c = Z.of_nat (List.length pre)))
  /\ idx s 0 = -1.
Proof.
  split.
  - unfold idx. destruct (idx_from_spec s c 0) as [H | (pre & post & H)].
    + now left.
    + right. exists pre, post. now rewrite Z.add_0_l in H.
  - unfold idx. generalize 0 at 2. induction s as [|ch p IH]; intros n.
    + reflexivity.
    + cbn [idx_from]. destruct (Z.eqb_spec ch 0); [reflexivity|]. apply IH.
Qed.

(** ** Rotors and reflector *)

(** X3.  With the installed wirings and operands that cannot overflow an
    [int] (absolute values below 2^30), the result of
    [encode_through_rotor] is in 0..25 and depends on the contact and on the
    position only through their residues modulo 26, for each of the four
    wiring tables and either direction. *)
Theorem encode_through_rotor_residues (s : EnigmaState) (k p d : Z) (r : nat) :
  rotors s = rotors init_enigma -> (r <= 3)%nat ->
  half_int k -> half_int p ->
  encode_through_rotor k r p d s =
    encode_through_rotor (k mod 26) r (p mod 26) d s /\
  0 <= encode_through_rotor k r p d s <= 25.
Proof.
  intros _ _ _ _. split; [|apply encode_through_rotor_range].
  rewrite (encode_through_rotor_position s k r p d).
  unfold encode_through_rotor.
  rewrite !mod_positive_mod, Zplus_mod_idemp_l. reflexivity.
Qed.

Lemma encode_through_rotor_residues_witness :
  encode_through_rotor (-30) 2 1000 1 init_enigma =
    encode_through_rotor 22 2 12 1 init_enigma.
Proof.
  destruct (encode_through_rotor_residues init_enigma (-30) 1000 1 2)
    as (H & _); [reflexivity | lia | unfold half_int; lia
                 | unfold half_int; lia | exact H].
Defined.

(** X4.  With the wirings of [init_enigma], each of the rotors I, II, III
    at any position that cannot overflow an [int] (absolute value below
    2^30) maps 0..25 one-to-one: the reverse pass undoes the forward pass
    and the forward pass undoes the reverse pass. *)
Theorem rotor_passes_inverse (s : EnigmaState) (r : nat) (k p : Z) :
  rotors s = rotors init_enigma ->
  (r <= 2)%nat -> 0 <= k <= 25 -> half_int p ->
  encode_through_rotor (encode_through_rotor k r p 0 s) r p 1 s = k /\
  encode_through_rotor (encode_through_rotor k r p 1 s) r p 0 s = k.
Proof. intros Hw Hr Hk _. now apply rotor_round_trip. Qed.

Lemma rotor_passes_inverse_witness :
  encode_through_rotor (encode_through_rotor 7 1 40 0 init_enigma) 1 40 1
    init_enigma = 7.
Proof.
  apply (rotor_passes_inverse init_enigma 1 7 40);
    [reflexivity | lia | lia | unfold half_int; lia].
Defined.

(** X5.  With the wirings of [init_enigma], the reflector step of
    [run_enigma] sends every contact in 0..25 to a different contact in
    0..25, and applied twice gives the contact back. *)
Theorem reflector_involution (s : EnigmaState) (k : Z) :
  rotors s = rotors init_enigma -> 0 <= k <= 25 ->
  let k' := idx ALPHABET (at_index (wiring s 3) k) in
  0 <= k' <= 25 /\ k' <> k /\
  idx ALPHABET (at_index (wiring s 3) k') = k.
Proof. intros Hw Hk. exact (reflector_spec s k Hw Hk). Qed.

Lemma reflector_involution_witness :
  idx ALPHABET (at_index (wiring init_enigma 3) 24) = 0.
Proof.
  destruct (reflector_involution init_enigma 0) as (_ & _ & H);
    [reflexivity | lia | exact H].
Defined.

(** X6.  On a configured state, the substitution pipeline at fixed
    positions is self-inverse on letters: it sends a letter [x] to a letter
    [y] and sends [y] back to [x]. *)
Theorem substitute_involution (s : EnigmaState) (x : Z) :
  configured_state s -> 65 <= x <= 90 ->
  exists y, substitute s x = Ok y /\ 65 <= y <= 90 /\ substitute s y = Ok x.
Proof.
  intros Hc Hx.
  destruct (substitute_configured s x Hc Hx) as (y & Hy & Hr & _ & Hb).
  now exists y.
Qed.

Lemma substitute_involution_witness :
  exists y, substitute example_lower_state 72 = Ok y /\ 65 <= y <= 90 /\
            substitute example_lower_state y = Ok 72.
Proof.
  apply (substitute_involution example_lower_state 72).
  - exact example_lower_state_configured.
  - lia.
Defined.

(** ** Stepping *)





(** ** The stream *)

Lemma run_enigma_char_state (s st : EnigmaState) (c o : Z) :
  run_enigma_char s c = Ok (o, st) ->
  st = if not_upper (to_upper c) then s else step_rotors s.
Proof.
  unfold run_enigma_char.
  destruct (not_upper (to_upper c)).
  - intros H. now inversion H.
  - destruct (substitute (step_rotors s) (to_upper c)); cbn [bind];
      intros H; now inversion H.
Qed.

Lemma steps_frame (n : nat) (s : EnigmaState) :
  rotors (steps n s) = rotors s /\
  notch_positions (steps n s) = notch_positions s /\
  plugboard (steps n s) = plugboard s.
Proof.
  revert s. induction n as [|n IH]; intros s; cbn [steps].
  - auto.
  - destruct (IH (step_rotors s)) as (-> & -> & ->). apply step_rotors_frame.
Qed.

(** X9.  Whenever [run_enigma] returns, it has written one character per
    character read, and the state it leaves is the initial state stepped
    once per letter read (of either case): the wirings, the notches and the
    plugboard are those it started with. *)
Theorem run_enigma_steps_per_letter (s s' : EnigmaState) (M C : list Z) :
  run_enigma s M = Ok (C, s') ->
  List.length C = List.length M /\
  s' = steps (count_letters M) s /\
  rotors s' = rotors s /\
  notch_positions s' = notch_positions s /\
  plugboard s' = plugboard s.
Proof.
  intros H.
  assert (Hs : List.length C = List.length M /\ s' = steps (count_letters M) s).
  { revert s C H. induction M as [|c M IH]; intros s C H.
    - cbn in H. inversion H. split; reflexivity.
    - cbn [run_enigma] in H.
      destruct (run_enigma_char s c) as [[o st]| |] eqn:Ec;
        cbn [bind fst snd] in H; try discriminate.
      destruct (run_enigma st M) as [[C' st']| |] eqn:Er;
        cbn [bind fst snd] in H; try discriminate.
      inversion H; subst. destruct (IH st C' Er) as (Hl & Hst).
      apply run_enigma_char_state in Ec.
      unfold count_letters in *. cbn [filter List.length].
      split; [now rewrite Hl|].
      destruct (not_upper (to_upper c)); cbn [negb List.length steps];
        now subst st. }
  destruct Hs as (Hl & ->). split; [exact Hl|]. split; [reflexivity|].
  apply steps_frame.
Qed.

Lemma run_enigma_steps_per_letter_witness :
  exists C s',
    run_enigma example_state (chars "To: X") = Ok (C, s') /\
    s' = steps 3 example_state.
Proof.
  destruct (run_enigma example_state (chars "To: X")) as [[C s']| |] eqn:E.
  - exists C, s'. split; [reflexivity|].
    destruct (run_enigma_steps_per_letter example_state s' (chars "To: X") C E)
      as (_ & Hs & _).
    exact Hs.
  - vm_compute in E. discriminate E.
  - vm_compute in E. discriminate E.
Defined.




(** X11.  Enciphering a stream in two parts, the second from the state the
    first leaves, is enciphering the whole stream: for every state and
    every outcome. *)
Theorem run_enigma_app (s : EnigmaState) (M1 M2 : list Z) :
  run_enigma s (M1 ++ M2) =
    (r1 <- run_enigma s M1 ;;
     r2 <- run_enigma (snd r1) M2 ;;
     Ok (fst r1 ++ fst r2, snd r2)).
Proof.
  revert s. induction M1 as [|c M1 IH]; intros s.
  - cbn [app run_enigma bind fst snd].
    destruct (run_enigma s M2) as [[C2 s2]| |]; reflexivity.
  - cbn [app run_enigma].
    destruct (run_enigma_char s c) as [[o st]| |]; cbn [bind fst snd];
      try reflexivity.
    rewrite IH.
    destruct (run_enigma st M1) as [[C1 s1]| |]; cbn [bind fst snd];
      try reflexivity.
    destruct (run_enigma s1 M2) as [[C2 s2]| |]; reflexivity.
Qed.

Lemma to_upper_idempotent (c : Z) : to_upper (to_upper c) = to_upper c.
Proof.
  unfold to_upper at 2 3. destruct (is_lower c) eqn:E; [|now rewrite to_upper_id].
  apply to_upper_id. unfold is_lower in *.
  rewrite andb_true_iff, !Z.leb_le in E.
  destruct (Z.leb_spec 97 (c - 32)); [lia | reflexivity].
Qed.

(** X12.  Case does not matter on input: a stream and its uppercase folding
    give the same output and the same final state, in every state. *)
Theorem run_enigma_case_insensitive (s : EnigmaState) (M : list Z) :
  run_enigma s M = run_enigma s (map to_upper M).
Proof.
  revert s. induction M as [|c M IH]; intros s; [reflexivity|].
  cbn [map run_enigma].
  assert (Hc : run_enigma_char s c = run_enigma_char s (to_upper c)).
  { unfold run_enigma_char. now rewrite to_upper_idempotent. }
  rewrite <- Hc.
  destruct (run_enigma_char s c) as [[o st]| |]; cbn [bind fst snd];
    try reflexivity.
  now rewrite IH.
Qed.

Lemma run_enigma_char_letter (s : EnigmaState) (c : Z) :
  configured_state s -> not_upper (to_upper c) = false ->
  exists o,
    run_enigma_char s c = Ok (o, step_rotors s) /\
    65 <= o <= 90 /\ o <> to_upper c.
Proof.
  intros Hc E.
  pose proof (not_upper_false _ E) as Hu.
  destruct (substitute_configured (step_rotors s) (to_upper c)
              (step_rotors_configured s Hc) Hu) as (y & Hy & Hr & Hne & _).
  exists y. unfold run_enigma_char. rewrite E, Hy. cbn [bind].
  unfold putchar. rewrite Z.mod_small by lia. auto.
Qed.

(** X13.  From a configured state, every letter of the input (of either
    case) comes out as an uppercase letter different from it, and every
    other byte comes out unchanged: no letter is ever enciphered to
    itself. *)
Theorem run_enigma_never_same_letter (s0 : EnigmaState) (M : list Z) :
  configured_state s0 -> Forall is_byte M ->
  exists C s1,
    run_enigma s0 M = Ok (C, s1) /\
    forall i, (i < List.length M)%nat ->
      if not_upper (to_upper (nth i M 0))
      then nth i C 0 = nth i M 0
      else 65 <= nth i C 0 <= 90 /\ nth i C 0 <> to_upper (nth i M 0).
Proof.
  intros Hc HM. revert s0 Hc.
  induction HM as [|c M Hb HM IH]; intros s0 Hc.
  - exists [], s0. split; [reflexivity|]. intros i Hi. cbn in Hi. lia.
  - assert (Hchar : exists o s',
               run_enigma_char s0 c = Ok (o, s') /\ configured_state s' /\
               if not_upper (to_upper c) then o = c
               else 65 <= o <= 90 /\ o <> to_upper c).
    { destruct (not_upper (to_upper c)) eqn:E.
      - exists c, s0. rewrite (run_enigma_char_passes s0 c Hb E). auto.
      - destruct (run_enigma_char_letter s0 c Hc E) as (o & Ho & Hr).
        exists o, (step_rotors s0).
        split; [exact Ho|]. split; [now apply step_rotors_configured | exact Hr]. }
    destruct Hchar as (o & s' & Ho & Hc' & Hprop).
    destruct (IH s' Hc') as (C & s1 & HC & Hnth).
    exists (o :: C), s1. cbn [run_enigma]. rewrite Ho. cbn [bind fst snd].
    rewrite HC. cbn [bind fst snd]. split; [reflexivity|].
    intros [|i] Hi; cbn [nth]; [exact Hprop|].
    apply Hnth. cbn [List.length] in Hi. lia.
Qed.

Lemma run_enigma_never_same_letter_witness :
  exists C s1,
    run_enigma example_lower_state (chars "a-B") = Ok (C, s1) /\
    nth 1 C 0 = 45 /\ nth 0 C 0 <> 65.
Proof.
  destruct (run_enigma_never_same_letter example_lower_state (chars "a-B"))
    as (C & s1 & HC & Hnth).
  - exact example_lower_state_configured.
  - repeat constructor; unfold is_byte; cbn; lia.
  - exists C, s1. split; [exact HC|]. split.
    + apply (Hnth 1%nat). cbn. lia.
    + apply (Hnth 0%nat). cbn. lia.
Defined.

(** ** The plugboard *)

Lemma pair_in_letters (ps : list (Z * Z * nat)) (a b : Z) (n : nat) :
  In (a, b, n) ps -> In a (pair_letters ps) /\ In b (pair_letters ps).
Proof.
  induction ps as [|[[a0 b0] n0] r IH]; intros H; [destruct H|].
  cbn [pair_letters]. destruct H as [H | H].
  - inversion H; subst. split; [now left | right; now left].
  - destruct (IH H) as [Ha Hb]. split; right; right; assumption.
Qed.

Lemma swap_pair (ps : list (Z * Z * nat)) (a b : Z) (n : nat) :
  pairs_ok ps = true -> In (a, b, n) ps -> swap ps a = b /\ swap ps b = a.
Proof.
  induction ps as [|[[a0 b0] n0] r IH]; intros Hok H; [destruct H|].
  apply pairs_ok_cons in Hok as (_ & _ & Hab & Hna & Hnb & Hr).
  cbn [swap]. destruct H as [H | H].
  - inversion H; subst. rewrite !Z.eqb_refl.
    destruct (Z.eqb_spec b a); [congruence | auto].
  - destruct (pair_in_letters r a b n H) as [Ha Hb].
    destruct (Z.eqb_spec a a0); [subst; contradiction|].
    destruct (Z.eqb_spec a b0); [subst; contradiction|].
    destruct (Z.eqb_spec b a0); [subst; contradiction|].
    destruct (Z.eqb_spec b b0); [subst; contradiction|].
    now apply IH.
Qed.

Lemma swap_outside (ps : list (Z * Z * nat)) (c : Z) :
  ~ In c (pair_letters ps) -> swap ps c = c.
Proof.
  induction ps as [|[[a b] n] r IH]; intros H; cbn [swap]; [reflexivity|].
  cbn [pair_letters] in H.
  destruct (Z.eqb_spec c a); [subst; exfalso; apply H; now left|].
  destruct (Z.eqb_spec c b); [subst; exfalso; apply H; right; now left|].
  apply IH. intros Hin. apply H. right; right; assumption.
Qed.

(** X14.  On a plugboard array holding disjoint letter pairs,
    [apply_plugboard] exchanges the two letters of every pair, leaves every
    other character as it is, and applied twice gives any character
    back. *)
Theorem apply_plugboard_paired (ps : list (Z * Z * nat)) (rest : list Z) (c : Z) :
  pairs_ok ps = true ->
  let pb := pairs_text ps ++ 0 :: rest in
  (forall a b n, In (a, b, n) ps ->
     plugged (apply_plugboard a pb) = Ok b /\
     plugged (apply_plugboard b pb) = Ok a) /\
  (~ In c (pair_letters ps) -> plugged (apply_plugboard c pb) = Ok c) /\
  (exists c', plugged (apply_plugboard c pb) = Ok c' /\
              plugged (apply_plugboard c' pb) = Ok c).
Proof.
  intros Hok pb. unfold pb. split; [|split].
  - intros a b n Hin. rewrite !apply_plugboard_pairs by assumption.
    destruct (swap_pair ps a b n Hok Hin) as [-> ->]. auto.
  - intros Hout. rewrite apply_plugboard_pairs by assumption.
    now rewrite swap_outside.
  - exists (swap ps c). rewrite !apply_plugboard_pairs by assumption.
    now rewrite swap_involutive.
Qed.

Lemma apply_plugboard_paired_witness :
  plugged (apply_plugboard 67 (plugboard example_state)) = Ok 68 /\
  plugged (apply_plugboard 90 (plugboard example_state)) = Ok 90.
Proof.
  destruct (apply_plugboard_paired [(65, 66, 1%nat); (67, 68, 0%nat)]
              (repeat 0 250) 90 eq_refl) as (Hp & Ho & _).
  split.
  - apply (Hp 67 68 0%nat). right. now left.
  - apply Ho. cbn. intros H. repeat destruct H as [H | H]; try discriminate H.
    exact H.
Defined.

Lemma skip_spaces_run_log {R : Type} (k : list Z -> nat -> list nat -> R)
    (oob : list nat -> R) (n : nat) (x : Z) (m : list Z) :
  x <> 32 ->
  forall q lg, exists lg',
    skip_spaces k oob (repeat 32 n ++ x :: m) q lg = k (x :: m) (n + q)%nat lg' /\
    forall B, Forall (fun i => (i <= B)%nat) lg -> (n + q <= B)%nat ->
              Forall (fun i => (i <= B)%nat) lg'.
Proof.
  intros Hx. induction n as [|n IH]; intros q lg; cbn [repeat app skip_spaces].
  - destruct (Z.eqb_spec x 32); [contradiction|].
    eexists. split; [reflexivity|]. intros B Hlg Hq. constructor; [lia | exact Hlg].
  - rewrite Z.eqb_refl.
    destruct (IH (S q) (q :: lg)) as (lg' & H & Hb). exists lg'. split.
    + rewrite H. f_equal. lia.
    + intros B Hlg Hq. apply Hb; [constructor; [lia | exact Hlg] | lia].
Qed.

Lemma plug_scan_pairs_log (c : Z) (ps : list (Z * Z * nat)) (rest : list Z) :
  pairs_ok ps = true ->
  forall ptr lg, exists lg',
    plug_scan c (pairs_text ps ++ 0 :: rest) ptr lg = Returned (swap ps c) lg' /\
    forall B, Forall (fun i => (i <= B)%nat) lg ->
              (ptr + List.length (pairs_text ps) <= B)%nat ->
              Forall (fun i => (i <= B)%nat) lg'.
Proof.
  induction ps as [|[[a b] n] r IH]; intros Hok ptr lg.
  - cbn. eexists. split; [reflexivity|].
    intros B Hlg Hq. constructor; [lia | exact Hlg].
  - apply pairs_ok_cons in Hok as (Ha & Hb & Hab & Hna & Hnb & Hr).
    cbn [pairs_text swap app plug_scan List.length]. rewrite <- app_assoc.
    rewrite length_app, repeat_length.
    destruct (Z.eqb_spec a 0); [lia|].
    destruct (Z.eqb_spec b 0); [lia|].
    destruct (Z.eqb_spec c a); cbn [andb negb].
    + eexists. split; [reflexivity|].
      intros B Hlg Hq. repeat constructor; try lia. exact Hlg.
    + destruct (Z.eqb_spec c b).
      * eexists. split; [reflexivity|].
        intros B Hlg Hq. repeat constructor; try lia. exact Hlg.
      * destruct (pairs_text_head r rest Hr) as (x & m & Hxm & Hx).
        rewrite Hxm.
        destruct (skip_spaces_run_log (plug_scan c) OutOfBounds n x m Hx
                    (S (S ptr)) (S ptr :: ptr :: lg)) as (lg1 & H1 & Hb1).
        rewrite H1, <- Hxm.
        destruct (IH Hr (n + S (S ptr))%nat lg1) as (lg' & H2 & Hb2).
        exists lg'. split; [exact H2|].
        intros B Hlg Hq. apply Hb2; [|lia].
        apply Hb1; [|lia]. repeat constructor; try lia. exact Hlg.
Qed.

(** X15.  On a plugboard array holding disjoint letter pairs, the scan of
    [apply_plugboard] returns for every character, and reads no index
    beyond that of the terminating NUL. *)
Theorem apply_plugboard_paired_reads (ps : list (Z * Z * nat)) (rest : list Z)
    (c : Z) :
  pairs_ok ps = true ->
  exists c' reads,
    apply_plugboard c (pairs_text ps ++ 0 :: rest) = Returned c' reads /\
    Forall (fun i => (i <= List.length (pairs_text ps))%nat) reads.
Proof.
  intros Hok. unfold apply_plugboard.
  destruct (plug_scan_pairs_log c ps rest Hok 0%nat [0%nat]) as (lg' & H & Hb).
  destruct ps as [|[[a b] n] r].
  - exists c, [0%nat]. split; [reflexivity|]. repeat constructor.
  - apply pairs_ok_cons in Hok as (Ha & _).
    cbn [pairs_text app] in *.
    destruct (Z.eqb_spec a 0); [lia|].
    eexists _, lg'. split; [exact H|].
    apply Hb; [repeat constructor; lia | lia].
Qed.

Lemma apply_plugboard_paired_reads_witness :
  exists c' reads,
    apply_plugboard 90 (plugboard example_state) = Returned c' reads /\
    Forall (fun i => (i <= 5)%nat) reads.
Proof.
  exact (apply_plugboard_paired_reads [(65, 66, 1%nat); (67, 68, 0%nat)]
           (repeat 0 250) 90 eq_refl).
Defined.

Lemma split_spaces (l : list Z) :
  exists n l',
    l = repeat 32 n ++ l' /\
    match l' with [] => True | x :: _ => x <> 32 end.
Proof.
  induction l as [|x l IH].
  - now exists 0%nat, [].
  - destruct (Z.eq_dec x 32) as [-> | Hx].
    + destruct IH as (n & l' & -> & Hl'). now exists (S n), l'.
    + now exists 0%nat, (x :: l).
Qed.

Lemma plug_scan_padded (c : Z) (rest : list Z) (n : nat) :
  forall txt,
    (List.length txt <= n)%nat -> Forall (fun ch => ch <> 0) txt ->
    forall ptr lg, exists r lg',
      plug_scan c (txt ++ 0 :: 0 :: rest) ptr lg = Returned r lg' /\
      (r = c \/ In r txt) /\
      forall B, Forall (fun i => (i <= B)%nat) lg ->
                (ptr + List.length txt + 1 <= B)%nat ->
                Forall (fun i => (i <= B)%nat) lg'.
Proof.
  induction n as [|n IH]; intros txt Hlen Hnz ptr lg.
  - destruct txt; [|cbn in Hlen; lia].
    exists c, (ptr :: lg). split; [reflexivity|]. split; [now left|].
    intros B Hlg Hq. constructor; [lia | exact Hlg].
  - destruct txt as [|a txt1].
    { exists c, (ptr :: lg). split; [reflexivity|]. split; [now left|].
      intros B Hlg Hq. constructor; [lia | exact Hlg]. }
    inversion_clear Hnz as [|? ? Ha Hnz1].
    cbn [app plug_scan]. destruct (Z.eqb_spec a 0); [contradiction|].
    destruct txt1 as [|b txt2].
    + cbn [app]. change (0 =? 0) with true. cbn [negb].
      rewrite andb_false_r.
      destruct (Z.eqb_spec c 0).
      * exists a, (S ptr :: ptr :: lg). split; [reflexivity|].
        split; [right; now left|].
        intros B Hlg Hq. cbn [List.length] in Hq.
        repeat constructor; try lia. exact Hlg.
      * cbn [skip_spaces]. change (0 =? 32) with false. cbv iota.
        cbn [plug_scan]. change (0 =? 0) with true. cbv iota.
        eexists c, _. split; [reflexivity|]. split; [now left|].
        intros B Hlg Hq. cbn [List.length] in Hq.
        repeat constructor; try lia. exact Hlg.
    + inversion_clear Hnz1 as [|? ? Hb Hnz2].
      cbn [app]. destruct (Z.eqb_spec b 0); [contradiction|].
      cbn [List.length] in Hlen.
      destruct (Z.eqb_spec c a); cbn [andb negb].
      * exists b, (S ptr :: ptr :: lg). split; [reflexivity|].
        split; [right; right; now left|].
        intros B Hlg Hq. cbn [List.length] in Hq.
        repeat constructor; try lia. exact Hlg.
      * destruct (Z.eqb_spec c b).
        -- exists a, (S ptr :: ptr :: lg). split; [reflexivity|].
           split; [right; now left|].
           intros B Hlg Hq. cbn [List.length] in Hq.
           repeat constructor; try lia. exact Hlg.
        -- destruct (split_spaces txt2) as (k & txt3 & E & Hhd).
           subst txt2. rewrite <- app_assoc.
           rewrite length_app, repeat_length in Hlen.
           apply Forall_app in Hnz2 as [_ Hnz3].
           assert (Hx : exists x m, txt3 ++ 0 :: 0 :: rest = x :: m /\ x <> 32).
           { destruct txt3 as [|x t]; cbn [app].
             - exists 0, (0 :: rest). split; [reflexivity | lia].
             - exists x, (t ++ 0 :: 0 :: rest). split; [reflexivity | exact Hhd]. }
           destruct Hx as (x & m & Hxm & Hx). rewrite Hxm.
           destruct (skip_spaces_run_log (plug_scan c) OutOfBounds k x m Hx
                       (S (S ptr)) (S ptr :: ptr :: lg)) as (lg1 & H1 & Hb1).
           rewrite H1, <- Hxm.
           destruct (IH txt3 ltac:(lia) Hnz3 (k + S (S ptr))%nat lg1)
             as (r & lg' & H2 & Hr & Hb2).
           exists r, lg'. split; [exact H2|]. split.
           ++ destruct Hr as [Hr | Hr]; [now left|].
              right. right. right. apply in_or_app. now right.
           ++ intros B Hlg Hq. cbn [List.length] in Hq.
              rewrite length_app, repeat_length in Hq.
              apply Hb2; [|lia]. apply Hb1; [|lia].
              repeat constructor; try lia. exact Hlg.
Qed.

(** In its [strncpy] form, [SAFE_STRCPY] leaves a second NUL after every
    string of at most 254 characters. *)
Lemma SAFE_STRCPY_padded (dest cfg : list Z) :
  (List.length cfg <= 254)%nat ->
  exists rest, SAFE_STRCPY dest cfg MAX_PLUGBOARD_LEN = cfg ++ 0 :: 0 :: rest.
Proof.
  intros Hlen. unfold SAFE_STRCPY, MAX_PLUGBOARD_LEN.
  change (256 - 1)%nat with 255%nat.
  rewrite firstn_app, firstn_all2 by lia.
  destruct (255 - List.length cfg)%nat as [|[|k]] eqn:E; [lia| |].
  - exists (skipn 256 dest).
    change (repeat 0 255) with (0 :: repeat 0 254). cbn [firstn].
    rewrite <- app_assoc. reflexivity.
  - change (repeat 0 255) with (0 :: 0 :: repeat 0 253). cbn [firstn].
    rewrite <- app_assoc. cbn [app]. eexists. reflexivity.
Qed.

Lemma to_upper_nonzero (ch : Z) : ch <> 0 -> to_upper ch <> 0.
Proof.
  unfold to_upper, is_lower. intros H.
  destruct (Z.leb_spec 97 ch); destruct (Z.leb_spec ch 122); cbn [andb]; lia.
Qed.

Lemma apply_plugboard_padded (c : Z) (txt rest : list Z) :
  Forall (fun ch => ch <> 0) txt ->
  exists r reads,
    apply_plugboard c (txt ++ 0 :: 0 :: rest) = Returned r reads /\
    (r = c \/ In r txt) /\
    Forall (fun i => (i <= List.length txt + 1)%nat) reads.
Proof.
  intros Hnz.
  destruct (plug_scan_padded c rest (List.length txt) txt (le_n _) Hnz
              0%nat [0%nat]) as (r & lg' & Hscan & Hr & Hb).
  unfold apply_plugboard. destruct txt as [|a t].
  - exists c, [0%nat]. cbn [app]. split; [reflexivity|].
    split; [now left|]. repeat constructor; lia.
  - cbn [app] in *. inversion Hnz as [|? ? Ha _]; subst.
    destruct (Z.eqb_spec a 0); [contradiction|].
    exists r, lg'. split; [exact Hscan|]. split; [exact Hr|].
    apply Hb; [repeat constructor; lia | lia].
Qed.

(** X16.  On a plugboard array whose string is followed by a second NUL
    (one more zero byte after the terminator), whatever the tokens of the
    string, [apply_plugboard] returns for every character: it reads at most
    one index past the terminating NUL, and returns either its argument or
    one of the characters of the string. *)
Theorem apply_plugboard_second_nul (txt rest : list Z) (c : Z) :
  Forall (fun ch => ch <> 0) txt ->
  exists r reads,
    apply_plugboard c (txt ++ 0 :: 0 :: rest) = Returned r reads /\
    (r = c \/ In r txt) /\
    Forall (fun i => (i <= List.length txt + 1)%nat) reads.
Proof. intros Hnz. now apply apply_plugboard_padded. Qed.

Lemma apply_plugboard_second_nul_witness :
  exists r reads,
    apply_plugboard 69 (chars "A B,CDE" ++ 0 :: 0 :: repeat 0 247)
      = Returned r reads /\
    Forall (fun i => (i <= 8)%nat) reads.
Proof.
  destruct (apply_plugboard_second_nul (chars "A B,CDE") (repeat 0 247) 69)
    as (r & reads & H1 & _ & H2).
  - repeat constructor; discriminate.
  - exists r, reads. split; [exact H1 | exact H2].
Defined.

Lemma run_enigma_padded (txt rest : list Z) (M : list Z) :
  Forall (fun ch => ch <> 0) txt ->
  forall s, plugboard s = txt ++ 0 :: 0 :: rest ->
  exists C s1, run_enigma s M = Ok (C, s1) /\ List.length C = List.length M.
Proof.
  intros Hnz. induction M as [|c M IH]; intros s Hpb.
  - exists [], s. split; reflexivity.
  - assert (Hchar : exists o st,
              run_enigma_char s c = Ok (o, st) /\ plugboard st = plugboard s).
    { unfold run_enigma_char. destruct (not_upper (to_upper c)).
      - eexists _, s. split; reflexivity.
      - destruct (step_rotors_frame s) as (_ & _ & Ep).
        unfold substitute. rewrite Ep, Hpb.
        destruct (apply_plugboard_padded (to_upper c) txt rest Hnz)
          as (r1 & l1 & -> & _). cbn [plugged bind].
        match goal with
        | |- context [apply_plugboard ?x (txt ++ 0 :: 0 :: rest)] =>
            destruct (apply_plugboard_padded x txt rest Hnz)
              as (r2 & l2 & -> & _)
        end.
        cbn [plugged bind]. eexists _, _. split; [reflexivity|].
        now rewrite Ep. }
    destruct Hchar as (o & st & Ho & Hst).
    destruct (IH st) as (C & s1 & HC & Hl); [now rewrite Hst|].
    exists (o :: C), s1. cbn [run_enigma]. rewrite Ho. cbn [bind fst snd].
    rewrite HC. cbn [bind fst snd List.length]. split; [reflexivity | now rewrite Hl].
Qed.

(** X17.  On a state with the installed wirings, three positions as
    [set_rotor_positions] stores them, and a plugboard array whose string
    is followed by a second NUL, whatever the tokens of the string,
    enciphering never reads outside the plugboard array: [run_enigma]
    returns for every input, with one character written per character
    read. *)
Theorem run_enigma_returns (s : EnigmaState) (txt rest M : list Z) :
  rotors s = rotors init_enigma ->
  List.length (positions s) = 3%nat -> Forall stored_position (positions s) ->
  plugboard s = txt ++ 0 :: 0 :: rest -> Forall (fun ch => ch <> 0) txt ->
  exists C s1,
    run_enigma s M = Ok (C, s1) /\ List.length C = List.length M.
Proof.
  intros _ _ _ Hpb Hnz. exact (run_enigma_padded txt rest M Hnz s Hpb).
Qed.

Lemma run_enigma_returns_witness :
  exists C s1,
    run_enigma (set_plugboard_array init_enigma
                  (chars "A BC,D" ++ 0 :: 0 :: repeat 0 248))
      (chars "Abcd") = Ok (C, s1) /\
    List.length C = 4%nat.
Proof.
  apply (run_enigma_returns
           (set_plugboard_array init_enigma
              (chars "A BC,D" ++ 0 :: 0 :: repeat 0 248))
           (chars "A BC,D") (repeat 0 248) (chars "Abcd")).
  - reflexivity.
  - reflexivity.
  - change (positions (set_plugboard_array init_enigma
                         (chars "A BC,D" ++ 0 :: 0 :: repeat 0 248)))
      with [0; 0; 0].
    repeat constructor; unfold stored_position; lia.
  - reflexivity.
  - repeat constructor; discriminate.
Defined.

(** ** Configuration *)

Lemma not_upper_is_letter (ch : Z) :
  not_upper (to_upper ch) = negb (is_letter ch).
Proof.
  unfold not_upper, to_upper, is_letter, is_upper, is_lower.
  rewrite !Z.gtb_ltb.
  destruct (Z.leb_spec 97 ch); destruct (Z.leb_spec ch 122); cbn [andb];
    repeat match goal with
           | |- context [?a <=? ?b] => destruct (Z.leb_spec a b)
           | |- context [?a <? ?b] => destruct (Z.ltb_spec a b)
           end; cbn; try reflexivity; lia.
Qed.

Lemma set_rotor_positions_letters (st : EnigmaState) (p : list Z) :
  List.length (positions st) = 3%nat ->
  set_rotor_positions st (Some p) =
    (if Nat.eqb (List.length p) 3 && forallb is_letter p
     then Ok (set_positions st (rev (map (fun ch => ch - 65) p)))
     else Exit 1).
Proof.
  intros Hl.
  destruct (positions_three st Hl) as (p0 & p1 & p2 & Hp).
  unfold set_rotor_positions.
  destruct (Nat.eqb_spec (List.length p) 3) as [E | N]; cbn [negb andb];
    [|reflexivity].
  destruct p as [|l [|m [|r [|? ?]]]]; try discriminate E.
  cbn [firstn existsb forallb]. rewrite !not_upper_is_letter.
  destruct (is_letter l); cbn [negb orb andb]; [|reflexivity].
  destruct (is_letter m); cbn [negb orb andb]; [|reflexivity].
  destruct (is_letter r); cbn [negb orb andb]; [|reflexivity].
  unfold assign_pos, set_positions, at_index.
  change (Z.to_nat 0) with 0%nat. change (Z.to_nat 1) with 1%nat.
  change (Z.to_nat 2) with 2%nat.
  cbn [positions nth rotors notch_positions plugboard].
  rewrite Hp. reflexivity.
Qed.

(** X18.  [set_rotor_positions] accepts exactly the strings of three
    letters, of either case; it then stores each character minus 'A', the
    third character in slot 0, and changes nothing else.  Every other
    string, and a null pointer, ends the program with status 1. *)
Theorem set_rotor_positions_spec (st : EnigmaState) (p : list Z) :
  List.length (positions st) = 3%nat ->
  set_rotor_positions st (Some p) =
    (if Nat.eqb (List.length p) 3 && forallb is_letter p
     then Ok (set_positions st (rev (map (fun ch => ch - 65) p)))
     else Exit 1) /\
  set_rotor_positions st None = Exit 1.
Proof.
  intros Hl. split; [now apply set_rotor_positions_letters | reflexivity].
Qed.

Lemma set_rotor_positions_spec_witness :
  set_rotor_positions init_enigma (Some (chars "Qe")) = Exit 1 /\
  set_rotor_positions init_enigma (Some (chars "QeV")) =
    Ok (set_positions init_enigma [21; 36; 16]).
Proof.
  split.
  - exact (proj1 (set_rotor_positions_spec init_enigma (chars "Qe") eq_refl)).
  - exact (proj1 (set_rotor_positions_spec init_enigma (chars "QeV") eq_refl)).
Defined.

Lemma c_string_app (txt rest : list Z) :
  Forall (fun ch => ch <> 0) txt -> c_string (txt ++ 0 :: rest) = txt.
Proof.
  induction 1 as [|ch txt Hc _ IH]; cbn [app c_string].
  - reflexivity.
  - destruct (Z.eqb_spec ch 0); [contradiction|]. now rewrite IH.
Qed.

(** X19.  [set_plugboard] stores every string of at most 255 characters as
    its uppercase folding, and changes neither the positions nor the
    wirings nor the notches; a null pointer leaves the empty string. *)
Theorem set_plugboard_stores_uppercase (st : EnigmaState) (cfg : list Z) :
  Forall (fun ch => ch <> 0) cfg -> (List.length cfg <= 255)%nat ->
  (exists st',
     set_plugboard st (Some cfg) = Ok st' /\
     c_string (plugboard st') = map to_upper cfg /\
     positions st' = positions st /\ rotors st' = rotors st /\
     notch_positions st' = notch_positions st) /\
  (exists st',
     set_plugboard st None = Ok st' /\ c_string (plugboard st') = [] /\
     positions st' = positions st).
Proof.
  intros Hnz Hlen. split.
  - unfold set_plugboard, MAX_PLUGBOARD_LEN.
    destruct (Nat.leb_spec 256 (List.length cfg)); [lia|].
    eexists. split; [reflexivity|].
    cbn [plugboard positions rotors notch_positions set_plugboard_array].
    split; [|auto].
    destruct (SAFE_STRCPY_short (plugboard st) cfg Hlen) as [rest Hcopy].
    fold MAX_PLUGBOARD_LEN. rewrite Hcopy.
    rewrite (upcase_string_app cfg rest Hnz).
    apply c_string_app. rewrite Forall_map.
    eapply Forall_impl; [|exact Hnz]. intros ch. apply to_upper_nonzero.
  - eexists. split; [reflexivity|].
    cbn [plugboard positions set_plugboard_array]. split; [|reflexivity].
    destruct (plugboard st); reflexivity.
Qed.

Lemma set_plugboard_stores_uppercase_witness :
  exists st',
    set_plugboard example_state (Some (chars "qw Er")) = Ok st' /\
    c_string (plugboard st') = chars "QW ER".
Proof.
  destruct (set_plugboard_stores_uppercase example_state (chars "qw Er"))
    as ((st' & H1 & H2 & _) & _).
  - repeat constructor; discriminate.
  - cbn. lia.
  - exists st'. split; [exact H1 | exact H2].
Defined.

Lemma letter_to_char (ch : Z) :
  is_letter ch = true -> to_char (65 + (ch - 65)) = ch /\ ch <> 0.
Proof.
  unfold is_letter, is_upper, is_lower, to_char.
  rewrite orb_true_iff, !andb_true_iff, !Z.leb_le. intros H.
  replace (65 + (ch - 65)) with ch by lia.
  split; [apply Z.mod_small|]; lia.
Qed.

(** X20.  What is set is what is shown: after [set_rotor_positions]
    accepts a string, [print_current_config] prints that very string as the
    positions, and its three characters as Left, Middle and Right. *)
Theorem print_current_config_shows_positions (st st' : EnigmaState)
    (p : list Z) :
  List.length (positions st) = 3%nat ->
  set_rotor_positions st (Some p) = Ok st' ->
  c_string (pos_str st') = p /\
  print_current_config st' =
    text_line "=== Enigma Configuration ==="
    ++ text_line "Rotors:     I, II, III"
    ++ text_line "Reflector:  B"
    ++ chars "Positions:  " ++ p
    ++ chars " (Left: " ++ [nth 0 p 0]
    ++ chars ", Middle: " ++ [nth 1 p 0]
    ++ chars ", Right: " ++ [nth 2 p 0] ++ text_line ")"
    ++ chars "Plugboard:  "
    ++ (if at_index (plugboard st) 0 =? 0 then chars "(none)"
        else c_string (plugboard st))
    ++ [10]
    ++ text_line "===========================".
Proof.
  intros Hl H.
  rewrite (set_rotor_positions_letters st p Hl) in H.
  destruct (Nat.eqb_spec (List.length p) 3) as [E | N];
    cbn [andb] in H; [|discriminate H].
  destruct p as [|l [|m [|r [|? ?]]]]; try discriminate E.
  cbn [forallb] in H.
  destruct (is_letter l) eqn:El; cbn [andb] in H; [|discriminate H].
  destruct (is_letter m) eqn:Em; cbn [andb] in H; [|discriminate H].
  destruct (is_letter r) eqn:Er; cbn [andb] in H; [|discriminate H].
  injection H as <-.
  destruct (letter_to_char l El) as (Cl & Nl).
  destruct (letter_to_char m Em) as (Cm & Nm).
  destruct (letter_to_char r Er) as (Cr & Nr).
  assert (Hs : pos_str (set_positions st [r - 65; m - 65; l - 65])
               = [l; m; r; 0]).
  { unfold pos_str, pos. cbn [positions set_positions nth].
    now rewrite Cl, Cm, Cr. }
  unfold print_current_config. rewrite Hs.
  cbn [plugboard set_positions].
  assert (Hc : c_string [l; m; r; 0] = [l; m; r]).
  { apply (c_string_app [l; m; r] []). repeat constructor; assumption. }
  rewrite Hc. split; reflexivity.
Qed.

Lemma print_current_config_shows_positions_witness :
  exists st',
    set_rotor_positions init_enigma (Some (chars "Qev")) = Ok st' /\
    c_string (pos_str st') = chars "Qev".
Proof.
  destruct (set_rotor_positions init_enigma (Some (chars "Qev")))
    as [st'| |] eqn:E.
  - exists st'. split; [reflexivity|].
    exact (proj1 (print_current_config_shows_positions init_enigma st'
                    (chars "Qev") eq_refl E)).
  - vm_compute in E. discriminate E.
  - vm_compute in E. discriminate E.
Defined.

(** ** The command line *)

Lemma parse_loop_help (rest : list (list Z)) (st : EnigmaState) (b : bool) :
  parse_loop (chars "-h" :: rest) st b = Exit 0 /\
  parse_loop (chars "--help" :: rest) st b = Exit 0.
Proof. split; reflexivity. Qed.

Lemma parse_loop_show (rest : list (list Z)) (st : EnigmaState) (b : bool) :
  parse_loop (chars "-s" :: rest) st b = parse_loop rest st true /\
  parse_loop (chars "--show" :: rest) st b = parse_loop rest st true.
Proof. split; reflexivity. Qed.

Lemma parse_loop_positions (v : list Z) (rest : list (list Z))
    (st : EnigmaState) (b : bool) :
  parse_loop (chars "-p" :: v :: rest) st b =
    (st' <- set_rotor_positions st (Some v) ;; parse_loop rest st' b) /\
  parse_loop (chars "--positions" :: v :: rest) st b =
    (st' <- set_rotor_positions st (Some v) ;; parse_loop rest st' b) /\
  parse_loop [chars "-p"] st b = Exit 1 /\
  parse_loop [chars "--positions"] st b = Exit 1.
Proof. repeat split; reflexivity. Qed.

Lemma parse_loop_plugboard (v : list Z) (rest : list (list Z))
    (st : EnigmaState) (b : bool) :
  parse_loop (chars "-b" :: v :: rest) st b =
    (st' <- set_plugboard st (Some v) ;; parse_loop rest st' b) /\
  parse_loop (chars "--plugboard" :: v :: rest) st b =
    (st' <- set_plugboard st (Some v) ;; parse_loop rest st' b) /\
  parse_loop [chars "-b"] st b = Exit 1 /\
  parse_loop [chars "--plugboard"] st b = Exit 1.
Proof. repeat split; reflexivity. Qed.

Lemma parse_loop_continue (n : nat) :
  forall (pre post : list (list Z)) (st st1 : EnigmaState) (b b1 : bool),
    (List.length pre <= n)%nat ->
    parse_loop pre st b = Ok (st1, b1) ->
    parse_loop (pre ++ post) st b = parse_loop post st1 b1.
Proof.
  induction n as [|n IH]; intros pre post st st1 b b1 Hlen H.
  - destruct pre; [|cbn in Hlen; lia]. cbn in H. now inversion H.
  - destruct pre as [|a rest].
    { cbn in H. now inversion H. }
    cbn [List.length] in Hlen. revert H. cbn [app parse_loop].
    destruct (streq a "-h" || streq a "--help"); [discriminate|].
    destruct (streq a "-s" || streq a "--show").
    { intros H. apply IH; [lia | exact H]. }
    destruct (streq a "-p" || streq a "--positions").
    { destruct rest as [|v rest']; [discriminate|]. cbn [app].
      destruct (set_rotor_positions st (Some v)) as [st'| |];
        cbn [bind]; try discriminate.
      intros H. apply IH; [cbn [List.length] in Hlen; lia | exact H]. }
    destruct (streq a "-b" || streq a "--plugboard"); [|discriminate].
    destruct rest as [|v rest']; [discriminate|]. cbn [app].
    destruct (set_plugboard st (Some v)) as [st'| |];
      cbn [bind]; try discriminate.
    intros H. apply IH; [cbn [List.length] in Hlen; lia | exact H].
Qed.

(** X21.  Options compose: when a list of options is parsed without exit,
    any options that follow are parsed from the state and the show flag it
    has reached. *)
Theorem parse_loop_app (pre post : list (list Z)) (st st1 : EnigmaState)
    (b b1 : bool) :
  parse_loop pre st b = Ok (st1, b1) ->
  parse_loop (pre ++ post) st b = parse_loop post st1 b1.
Proof. intros H. now apply (parse_loop_continue (List.length pre)). Qed.

Lemma parse_loop_app_witness :
  parse_loop ([chars "-p"; chars "XYZ"] ++ [chars "-b"; chars "ab CD"])
    init_enigma false = Ok (example_state, false).
Proof.
  rewrite (parse_loop_app [chars "-p"; chars "XYZ"] [chars "-b"; chars "ab CD"]
             init_enigma (set_positions init_enigma [25; 24; 23]) false false);
    reflexivity.
Defined.

(** X22.  After options parsed without exit: -h or --help ends the program
    with status 0; -p or -b as the last word, an argument that
    [set_rotor_positions] or [set_plugboard] rejects, and a word that is no
    option end it with status 1, whatever follows. *)
Theorem parse_arguments_exits (pre post : list (list Z))
    (st st1 : EnigmaState) (b1 : bool) :
  parse_loop pre st false = Ok (st1, b1) ->
  parse_arguments (pre ++ chars "-h" :: post) st = Exit 0 /\
  parse_arguments (pre ++ chars "--help" :: post) st = Exit 0 /\
  parse_arguments (pre ++ [chars "-p"]) st = Exit 1 /\
  parse_arguments (pre ++ [chars "-b"]) st = Exit 1 /\
  (forall v n, set_rotor_positions st1 (Some v) = Exit n ->
     parse_arguments (pre ++ chars "-p" :: v :: post) st = Exit n) /\
  (forall v n, set_plugboard st1 (Some v) = Exit n ->
     parse_arguments (pre ++ chars "-b" :: v :: post) st = Exit n) /\
  (forall a,
     existsb (streq a)
       ["-h"; "--help"; "-s"; "--show"; "-p"; "--positions"; "-b";
        "--plugboard"]%string = false ->
     parse_arguments (pre ++ a :: post) st = Exit 1).
Proof.
  intros H. unfold parse_arguments.
  rewrite !(parse_loop_continue (List.length pre) pre _ st st1 false b1
              (le_n _) H).
  split; [reflexivity|]. split; [reflexivity|].
  split; [reflexivity|]. split; [reflexivity|].
  split; [|split].
  - intros v n Hv.
    rewrite (parse_loop_continue (List.length pre) pre _ st st1 false b1
               (le_n _) H).
    rewrite (proj1 (parse_loop_positions v post st1 b1)), Hv. reflexivity.
  - intros v n Hv.
    rewrite (parse_loop_continue (List.length pre) pre _ st st1 false b1
               (le_n _) H).
    rewrite (proj1 (parse_loop_plugboard v post st1 b1)), Hv. reflexivity.
  - intros a Ha.
    rewrite (parse_loop_continue (List.length pre) pre _ st st1 false b1
               (le_n _) H).
    cbn [existsb] in Ha. rewrite !orb_false_iff in Ha.
    destruct Ha as (H1 & H2 & H3 & H4 & H5 & H6 & H7 & H8 & _).
    cbn [parse_loop]. rewrite H1, H2, H3, H4, H5, H6, H7, H8. reflexivity.
Qed.

Lemma parse_arguments_exits_witness :
  parse_arguments ([chars "-p"; chars "XYZ"] ++ [chars "-x"; chars "-h"])
    init_enigma = Exit 1 /\
  parse_arguments ([chars "-p"; chars "XYZ"] ++ [chars "-p"; chars "XY"; chars "-h"])
    init_enigma = Exit 1.
Proof.
  destruct (parse_arguments_exits [chars "-p"; chars "XYZ"] [chars "-h"]
              init_enigma (set_positions init_enigma [25; 24; 23]) false
              eq_refl) as (_ & _ & _ & _ & Hp & _ & Hx).
  split.
  - apply (Hx (chars "-x")). reflexivity.
  - apply (Hp (chars "XY") 1). reflexivity.
Defined.

Lemma parse_loop_flag (n : nat) :
  forall (args : list (list Z)) (st st' : EnigmaState) (b' : bool),
    (List.length args <= n)%nat ->
    parse_loop args st true = Ok (st', b') -> b' = true.
Proof.
  induction n as [|n IH]; intros args st st' b' Hlen H.
  - destruct args; [|cbn in Hlen; lia]. cbn in H. now inversion H.
  - destruct args as [|a rest].
    { cbn in H. now inversion H. }
    cbn [List.length] in Hlen. revert H. cbn [parse_loop].
    destruct (streq a "-h" || streq a "--help"); [discriminate|].
    destruct (streq a "-s" || streq a "--show").
    { intros H. eapply IH; [|exact H]. lia. }
    destruct (streq a "-p" || streq a "--positions").
    { destruct rest as [|v rest']; [discriminate|].
      destruct (set_rotor_positions st (Some v)) as [st1| |];
        cbn [bind]; try discriminate.
      intros H. eapply IH; [|exact H]. cbn [List.length] in Hlen. lia. }
    destruct (streq a "-b" || streq a "--plugboard"); [|discriminate].
    destruct rest as [|v rest']; [discriminate|].
    destruct (set_plugboard st (Some v)) as [st1| |];
      cbn [bind]; try discriminate.
    intros H. eapply IH; [|exact H]. cbn [List.length] in Hlen. lia.
Qed.

(** X23.  Once -s or --show has been read, the program never enciphers:
    whatever options follow, [parse_arguments] ends it, with status 0 when
    they are all accepted, and [main] writes nothing to stdout. *)
Theorem parse_arguments_show (pre post : list (list Z))
    (st st1 : EnigmaState) (b1 : bool) (stdin : list Z) :
  parse_loop pre st false = Ok (st1, b1) ->
  (exists n, parse_arguments (pre ++ chars "-s" :: post) st = Exit n) /\
  (forall st2 b2, parse_loop post st1 true = Ok (st2, b2) ->
     parse_arguments (pre ++ chars "-s" :: post) st = Exit 0) /\
  (st = init_enigma ->
   exists n, main (pre ++ chars "-s" :: post) stdin = ([], Exit n)).
Proof.
  intros H.
  assert (Hp : parse_loop (pre ++ chars "-s" :: post) st false
               = parse_loop post st1 true).
  { rewrite (parse_loop_continue (List.length pre) pre _ st st1 false b1
               (le_n _) H).
    apply parse_loop_show. }
  assert (Hex : (forall st2 b2, parse_loop post st1 true = Ok (st2, b2) ->
                   parse_arguments (pre ++ chars "-s" :: post) st = Exit 0) /\
                exists n, parse_arguments (pre ++ chars "-s" :: post) st = Exit n).
  { unfold parse_arguments. rewrite Hp.
    destruct (parse_loop post st1 true) as [[st2 b2]| |] eqn:E; cbn [bind snd fst].
    - rewrite (parse_loop_flag (List.length post) post st1 st2 b2 (le_n _) E).
      split; [reflexivity | now exists 0].
    - split; [discriminate | now exists status].
    - split; [discriminate|]. exfalso.
      clear -E. revert st1 E.
      assert (Hu : forall n args st b, (List.length args <= n)%nat ->
                     parse_loop args st b <> Undefined).
      { induction n as [|n IH]; intros args st b Hlen.
        - destruct args; [discriminate | cbn in Hlen; lia].
        - destruct args as [|a rest]; [discriminate|].
          cbn [List.length] in Hlen. cbn [parse_loop].
          destruct (streq a "-h" || streq a "--help"); [discriminate|].
          destruct (streq a "-s" || streq a "--show"); [apply IH; lia|].
          destruct (streq a "-p" || streq a "--positions").
          { destruct rest as [|v rest']; [discriminate|].
            unfold set_rotor_positions.
            destruct (negb (Nat.eqb (List.length v) 3)); [discriminate|].
            destruct (existsb _ _); [discriminate|]. cbn [bind].
            apply IH. cbn [List.length] in Hlen. lia. }
          destruct (streq a "-b" || streq a "--plugboard"); [|discriminate].
          destruct rest as [|v rest']; [discriminate|].
          unfold set_plugboard.
          destruct (Nat.leb MAX_PLUGBOARD_LEN (List.length v)); [discriminate|].
          cbn [bind]. apply IH. cbn [List.length] in Hlen. lia. }
      intros st1 E. exact (Hu (List.length post) post st1 true (le_n _) E). }
  destruct Hex as (H0 & n & Hn).
  split; [now exists n|]. split; [exact H0|].
  intros ->. exists n. unfold main.
  destruct (pre ++ chars "-s" :: post) as [|a l] eqn:El.
  - destruct pre; discriminate El.
  - rewrite Hn. reflexivity.
Qed.

Lemma parse_arguments_show_witness :
  parse_arguments
    ([chars "-b"; chars "AB"] ++ chars "-s" :: [chars "-p"; chars "abc"])
    init_enigma = Exit 0 /\
  exists n,
    main ([chars "-b"; chars "AB"] ++ chars "-s" :: [chars "-p"; chars "abc"])
      (chars "HELLO") = ([], Exit n).
Proof.
  destruct (parse_arguments_show [chars "-b"; chars "AB"]
              [chars "-p"; chars "abc"] init_enigma
              (configure "AAA" "AB") false (chars "HELLO") eq_refl)
    as (_ & H0 & Hm).
  split.
  - exact (H0 (set_positions (configure "AAA" "AB") [34; 33; 32]) true eq_refl).
  - exact (Hm eq_refl).
Defined.

(** ** The interactive dialogue *)

Lemma fgets_chars_line (line rest : list Z) :
  ~ In 10 line ->
  forall n, (List.length line < n)%nat ->
  fgets_chars n (line ++ 10 :: rest) = (line ++ [10], rest).
Proof.
  induction line as [|c l IH]; intros Hnl n Hn.
  - destruct n; [cbn in Hn; lia|]. reflexivity.
  - destruct n; [cbn in Hn; lia|]. cbn [app fgets_chars].
    destruct (Z.eqb_spec c 10); [exfalso; apply Hnl; now left|].
    rewrite IH; [reflexivity | | cbn [List.length] in Hn; lia].
    intros H. apply Hnl. now right.
Qed.

Lemma fgets_line (line rest : list Z) :
  Forall (fun c => c <> 0 /\ c <> 10) line ->
  (List.length line <= 254)%nat ->
  fgets 256 (line ++ 10 :: rest) = Some ((line ++ [10]) ++ [0], rest) /\
  chomp ((line ++ [10]) ++ [0]) = line.
Proof.
  intros Hline Hlen. split.
  - unfold fgets. change (256 - 1)%nat with 255%nat.
    rewrite fgets_chars_line; [|rewrite Forall_forall in Hline|lia].
    + destruct line; reflexivity.
    + intros H. now destruct (Hline 10 H).
  - unfold chomp.
    rewrite <- app_assoc. cbn [app].
    assert (Hc : c_string (line ++ [10; 0]) = line ++ [10]).
    { change [10; 0] with ([10] ++ 0 :: []). rewrite app_assoc.
      apply c_string_app. apply Forall_app. split.
      - eapply Forall_impl; [|exact Hline]. now intros c [H _].
      - repeat constructor. discriminate. }
    rewrite Hc, length_app, last_last, removelast_last.
    cbn [List.length]. rewrite Nat.add_comm. reflexivity.
Qed.

Lemma skip_blanks_app (bl s : list Z) :
  Forall (fun c => c = 32 \/ c = 9) bl ->
  skip_blanks (bl ++ s) = skip_blanks s.
Proof.
  induction 1 as [|c bl Hc _ IH]; [reflexivity|].
  cbn [app skip_blanks]. destruct Hc as [-> | ->]; exact IH.
Qed.

Lemma blank_line (bl s : list Z) :
  Forall (fun c => c = 32 \/ c = 9) bl ->
  Forall (fun c => c <> 0 /\ c <> 10) s ->
  Forall (fun c => c <> 0 /\ c <> 10) (bl ++ s).
Proof.
  intros Hb Hs. apply Forall_app. split; [|exact Hs].
  eapply Forall_impl; [|exact Hb]. intros c [-> | ->]; split; discriminate.
Qed.

Section Dialogue.

Variable bl : list Z.
Variable s : list Z.
Hypothesis blanks : Forall (fun c => c = 32 \/ c = 9) bl.
Hypothesis text : Forall (fun c => c <> 0 /\ c <> 10) s.
Hypothesis starts : s <> [] /\ skip_blanks s = s.
Hypothesis fits : (List.length (bl ++ s) <= 254)%nat.

Lemma ask_positions_line (st : EnigmaState) :
  exists (t0 : list Z) (t : EnigmaState -> list Z),
  forall rest,
    ask_positions st ((bl ++ s) ++ 10 :: rest) =
      match set_rotor_positions st (Some s) with
      | Ok st1 => (t st1, Ok (st1, rest))
      | Exit n => (t0, Exit n)
      | Undefined => (t0, Undefined)
      end.
Proof.
  eexists _, (fun st1 => _). intros rest. unfold ask_positions.
  destruct (fgets_line (bl ++ s) rest (blank_line bl s blanks text) fits)
    as (-> & ->).
  rewrite (skip_blanks_app bl s blanks), (proj2 starts).
  destruct s as [|x s'] eqn:Es; [now destruct starts|].
  assert (Hlen : Nat.ltb 0 (List.length (bl ++ x :: s')) = true).
  { apply Nat.ltb_lt. rewrite length_app. cbn [List.length]. lia. }
  rewrite Hlen.
  destruct (set_rotor_positions st (Some (x :: s'))); reflexivity.
Qed.

Lemma ask_plugboard_line (st : EnigmaState) :
  exists (t0 : list Z) (t : EnigmaState -> list Z),
  forall rest,
    ask_plugboard st ((bl ++ s) ++ 10 :: rest) =
      match set_plugboard st (Some s) with
      | Ok st1 => (t st1, Ok (st1, rest))
      | Exit n => (t0, Exit n)
      | Undefined => (t0, Undefined)
      end.
Proof.
  eexists _, (fun st1 => _). intros rest. unfold ask_plugboard.
  destruct (fgets_line (bl ++ s) rest (blank_line bl s blanks text) fits)
    as (-> & ->).
  rewrite (skip_blanks_app bl s blanks), (proj2 starts).
  destruct s as [|x s'] eqn:Es; [now destruct starts|].
  destruct (set_plugboard st (Some (x :: s'))); reflexivity.
Qed.

End Dialogue.

(** X24.  The dialogue configures as the options do: when the first line
    holds a string [p] and the second a string [cfg], each after any spaces
    and tabs and each line of at most 254 characters, [interactive_config]
    ends as -p [p] -b [cfg] does, with the same state or the same exit
    status, and leaves the rest of the input unread. *)
Theorem interactive_config_as_options (st : EnigmaState)
    (bl1 p bl2 cfg rest : list Z) :
  Forall (fun c => c = 32 \/ c = 9) bl1 ->
  Forall (fun c => c <> 0 /\ c <> 10) p ->
  p <> [] /\ skip_blanks p = p ->
  (List.length (bl1 ++ p) <= 254)%nat ->
  Forall (fun c => c = 32 \/ c = 9) bl2 ->
  Forall (fun c => c <> 0 /\ c <> 10) cfg ->
  cfg <> [] /\ skip_blanks cfg = cfg ->
  (List.length (bl2 ++ cfg) <= 254)%nat ->
  snd (interactive_config st
         ((bl1 ++ p) ++ 10 :: (bl2 ++ cfg) ++ 10 :: rest)) =
    (r <- parse_loop [chars "-p"; p; chars "-b"; cfg] st false ;;
     Ok (fst r, rest)).
Proof.
  intros B1 T1 S1 F1 B2 T2 S2 F2.
  rewrite (proj1 (parse_loop_positions p [chars "-b"; cfg] st false)).
  destruct (ask_positions_line bl1 p B1 T1 S1 F1 st) as (t0 & t & H1).
  unfold interactive_config. rewrite H1.
  destruct (set_rotor_positions st (Some p)) as [st1| |]; cbn [bind snd];
    try reflexivity.
  rewrite (proj1 (parse_loop_plugboard cfg [] st1 false)).
  destruct (ask_plugboard_line bl2 cfg B2 T2 S2 F2 st1) as (u0 & u & H2).
  rewrite H2.
  destruct (set_plugboard st1 (Some cfg)) as [st2| |]; reflexivity.
Qed.

Lemma interactive_config_as_options_witness :
  snd (interactive_config init_enigma
         (([32; 9] ++ chars "xyz") ++ 10 :: ([] ++ chars "ab CD") ++ 10
            :: chars "hello")) =
    Ok (example_lower_state, chars "hello").
Proof.
  rewrite (interactive_config_as_options init_enigma [32; 9] (chars "xyz") []
             (chars "ab CD") (chars "hello")).
  - reflexivity.
  - apply Forall_forall. intros c [<- | [<- | []]]; [now left | now right].
  - repeat constructor; discriminate.
  - split; [discriminate | reflexivity].
  - cbn. lia.
  - constructor.
  - repeat constructor; discriminate.
  - split; [discriminate | reflexivity].
  - cbn. lia.
Defined.

Lemma skip_blanks_all (bl : list Z) :
  Forall (fun c => c = 32 \/ c = 9) bl -> skip_blanks bl = [].
Proof.
  intros H. rewrite <- (app_nil_r bl), skip_blanks_app by assumption.
  reflexivity.
Qed.

(** X25.  Two lines of nothing but spaces and tabs (or two bare newlines),
    and an input already at its end, leave the state as it was: the
    dialogue reports the defaults and keeps the rest of the input for
    enciphering. *)
Theorem interactive_config_defaults (st : EnigmaState) (bl1 bl2 rest : list Z) :
  Forall (fun c => c = 32 \/ c = 9) bl1 -> (List.length bl1 <= 254)%nat ->
  Forall (fun c => c = 32 \/ c = 9) bl2 -> (List.length bl2 <= 254)%nat ->
  interactive_config st (bl1 ++ 10 :: bl2 ++ 10 :: rest) =
    (fst (interactive_config st [10; 10]), Ok (st, rest)) /\
  snd (interactive_config st []) = Ok (st, []).
Proof.
  intros B1 F1 B2 F2. split; [|reflexivity].
  assert (Hl : forall bl, Forall (fun c => c = 32 \/ c = 9) bl ->
                 Forall (fun c => c <> 0 /\ c <> 10) bl).
  { intros bl Hb. rewrite <- (app_nil_r bl). apply blank_line; [exact Hb | constructor]. }
  unfold interactive_config, ask_positions.
  destruct (fgets_line bl1 (bl2 ++ 10 :: rest) (Hl bl1 B1) F1) as (-> & ->).
  rewrite (skip_blanks_all bl1 B1).
  assert (E1 : forall (A : Type) (x : A),
             (if Nat.ltb 0 (List.length bl1) then x else x) = x).
  { intros A x. now destruct (Nat.ltb 0 (List.length bl1)). }
  rewrite E1. unfold ask_plugboard.
  destruct (fgets_line bl2 rest (Hl bl2 B2) F2) as (-> & ->).
  rewrite (skip_blanks_all bl2 B2).
  reflexivity.
Qed.

Lemma interactive_config_defaults_witness :
  snd (interactive_config example_state
         ([32; 32] ++ 10 :: [9] ++ 10 :: chars "HELLO")) =
    Ok (example_state, chars "HELLO").
Proof.
  destruct (interactive_config_defaults example_state [32; 32] [9]
              (chars "HELLO")) as (H & _).
  - apply Forall_forall. intros c [<- | [<- | []]]; now left.
  - cbn. lia.
  - apply Forall_forall. intros c [<- | []]; now right.
  - cbn. lia.
  - rewrite H. reflexivity.
Defined.

(** ** The whole program *)

Lemma configure_options (p cfg : list Z) (ps : list (Z * Z * nat)) :
  List.length p = 3%nat -> forallb is_letter p = true ->
  pairs_ok ps = true -> map to_upper cfg = pairs_text ps ->
  (List.length cfg <= 255)%nat ->
  exists st1 st2,
    set_rotor_positions init_enigma (Some p) = Ok st1 /\
    set_plugboard st1 (Some cfg) = Ok st2 /\
    configured_state st2.
Proof.
  intros Hp Hl Hok Hcfg Hlen.
  pose proof (valid_state_configured _ init_enigma_valid) as Hi.
  pose proof (set_rotor_positions_letters init_enigma p eq_refl) as H1.
  rewrite Hp, Hl in H1. cbn [Nat.eqb andb] in H1.
  pose proof (set_rotor_positions_configured init_enigma _ p Hi H1) as Hc1.
  destruct (set_plugboard_configured _ cfg ps Hc1 Hok Hcfg Hlen)
    as (st2 & H2 & _ & Hc2).
  eexists _, st2. split; [exact H1|]. split; [exact H2 | exact Hc2].
Qed.

(** X26.  Deciphering with the program: run with -p [p] -b [cfg], for any
    three letters [p] and any plugboard string [cfg] of disjoint letter
    pairs (of either case), the program writes for an input [M] a text [C]
    of the same length and ends normally, and run again with the same
    options on [C] it writes [M] folded to uppercase. *)
Theorem main_options_round_trip (p cfg : list Z) (ps : list (Z * Z * nat))
    (M : list Z) :
  List.length p = 3%nat -> forallb is_letter p = true ->
  pairs_ok ps = true -> map to_upper cfg = pairs_text ps ->
  (List.length cfg <= 255)%nat ->
  Forall is_byte M ->
  exists C,
    main [chars "-p"; p; chars "-b"; cfg] M = (C, Ok tt) /\
    main [chars "-p"; p; chars "-b"; cfg] C = (map to_upper M, Ok tt) /\
    List.length C = List.length M.
Proof.
  intros Hp Hl Hok Hcfg Hlen HM.
  destruct (configure_options p cfg ps Hp Hl Hok Hcfg Hlen)
    as (st1 & st2 & H1 & H2 & Hc).
  assert (Hparse : parse_arguments [chars "-p"; p; chars "-b"; cfg] init_enigma
                   = Ok st2).
  { unfold parse_arguments.
    rewrite (proj1 (parse_loop_positions p [chars "-b"; cfg] init_enigma false)).
    rewrite H1. cbn [bind].
    rewrite (proj1 (parse_loop_plugboard cfg [] st1 false)).
    rewrite H2. reflexivity. }
  destruct (run_enigma_configured M HM st2 Hc)
    as (C & s1 & HC & _ & Hback & Hlen' & _).
  exists C. unfold main. cbv iota. rewrite Hparse, HC, Hback.
  cbn [app]. auto.
Qed.

Lemma main_options_round_trip_witness :
  exists C,
    main [chars "-p"; chars "qEv"; chars "-b"; chars "ab  Cd"]
      (chars "Attack at dawn!") = (C, Ok tt) /\
    main [chars "-p"; chars "qEv"; chars "-b"; chars "ab  Cd"] C =
      (chars "ATTACK AT DAWN!", Ok tt).
Proof.
  destruct (main_options_round_trip (chars "qEv") (chars "ab  Cd")
              [(65, 66, 2%nat); (67, 68, 0%nat)] (chars "Attack at dawn!"))
    as (C & H1 & H2 & _); try reflexivity.
  - cbn. lia.
  - repeat constructor; unfold is_byte; cbn; lia.
  - exists C. split; [exact H1 | exact H2].
Defined.

Lemma letter_plain (c : Z) :
  is_letter c = true -> (c <> 0 /\ c <> 10) /\ c <> 32 /\ c <> 9.
Proof.
  unfold is_letter, is_upper, is_lower.
  rewrite orb_true_iff, !andb_true_iff, !Z.leb_le. lia.
Qed.

(** X27.  Deciphering with the dialogue: with no option, when the first
    input line gives three letters and the second a plugboard string of
    disjoint letter pairs (each after any spaces and tabs), the program
    writes its dialogue and then a text [C] for the rest [M] of the input;
    given the same two lines followed by [C], it writes the same dialogue
    and then [M] folded to uppercase. *)
Theorem main_dialogue_round_trip (bl1 p bl2 cfg : list Z)
    (ps : list (Z * Z * nat)) (M : list Z) :
  Forall (fun c => c = 32 \/ c = 9) bl1 ->
  List.length p = 3%nat -> forallb is_letter p = true ->
  (List.length bl1 <= 251)%nat ->
  Forall (fun c => c = 32 \/ c = 9) bl2 ->
  Forall (fun c => c <> 0 /\ c <> 10) cfg ->
  cfg <> [] /\ skip_blanks cfg = cfg ->
  (List.length (bl2 ++ cfg) <= 254)%nat ->
  pairs_ok ps = true -> map to_upper cfg = pairs_text ps ->
  Forall is_byte M ->
  let lines := fun rest => (bl1 ++ p) ++ 10 :: (bl2 ++ cfg) ++ 10 :: rest in
  exists T C,
    main [] (lines M) = (T ++ C, Ok tt) /\
    main [] (lines C) = (T ++ map to_upper M, Ok tt) /\
    List.length C = List.length M.
Proof.
  intros B1 Hp Hl F1 B2 T2 S2 F2 Hok Hcfg HM lines.
  assert (Hlen : (List.length cfg <= 255)%nat).
  { rewrite length_app in F2. lia. }
  destruct (configure_options p cfg ps Hp Hl Hok Hcfg Hlen)
    as (st1 & st2 & H1 & H2 & Hc).
  assert (T1 : Forall (fun c => c <> 0 /\ c <> 10) p).
  { rewrite forallb_forall in Hl. apply Forall_forall.
    intros c Hin. apply letter_plain. now apply Hl. }
  assert (S1 : p <> [] /\ skip_blanks p = p).
  { destruct p as [|x p']; [discriminate Hp|]. split; [discriminate|].
    cbn [forallb] in Hl. apply andb_true_iff in Hl as [Hx _].
    destruct (letter_plain x Hx) as (_ & N32 & N9). cbn [skip_blanks].
    destruct (Z.eqb_spec x 32); [contradiction|].
    destruct (Z.eqb_spec x 9); [contradiction|]. reflexivity. }
  assert (F1' : (List.length (bl1 ++ p) <= 254)%nat).
  { rewrite length_app. lia. }
  destruct (ask_positions_line bl1 p B1 T1 S1 F1' init_enigma) as (t0 & t & A1).
  destruct (ask_plugboard_line bl2 cfg B2 T2 S2 F2 st1) as (u0 & u & A2).
  assert (Hcfgd : forall rest,
            interactive_config init_enigma (lines rest)
            = (t st1 ++ u st2, Ok (st2, rest))).
  { intros rest. unfold interactive_config, lines.
    rewrite A1, H1, A2, H2. reflexivity. }
  destruct (run_enigma_configured M HM st2 Hc)
    as (C & s1 & HC & _ & Hback & Hlen' & _).
  exists (t st1 ++ u st2), C. unfold main.
  rewrite !Hcfgd, HC, Hback. auto.
Qed.

Lemma main_dialogue_round_trip_witness :
  exists T C,
    main [] (([32] ++ chars "qEv") ++ 10 :: ([9] ++ chars "ab Cd") ++ 10
               :: chars "Attack at dawn!") = (T ++ C, Ok tt) /\
    main [] (([32] ++ chars "qEv") ++ 10 :: ([9] ++ chars "ab Cd") ++ 10 :: C)
      = (T ++ chars "ATTACK AT DAWN!", Ok tt).
Proof.
  destruct (main_dialogue_round_trip [32] (chars "qEv") [9] (chars "ab Cd")
              [(65, 66, 1%nat); (67, 68, 0%nat)] (chars "Attack at dawn!"))
    as (T & C & H1 & H2 & _); try reflexivity.
  - apply Forall_forall. intros c [<- | []]. now left.
  - cbn. lia.
  - apply Forall_forall. intros c [<- | []]. now right.
  - repeat constructor; discriminate.
  - split; [discriminate | reflexivity].
  - cbn. lia.
  - repeat constructor; unfold is_byte; cbn; lia.
  - exists T, C. split; [exact H1 | exact H2].
Defined.

(** With options, [main] writes what [main_with_options] returns. *)
Lemma main_with_options_main (args : list (list Z)) (stdin : list Z) :
  args <> [] ->
  main args stdin =
    match main_with_options args stdin with
    | Ok out => (out, Ok tt)
    | Exit n => ([], Exit n)
    | Undefined => ([], Undefined)
    end.
Proof.
  intros Hne. unfold main, main_with_options.
  destruct args as [|a l]; [contradiction|].
  destruct (parse_arguments (a :: l) init_enigma) as [st| |]; cbn [bind];
    try reflexivity.
  destruct (run_enigma st stdin) as [[out s1]| |]; reflexivity.
Qed.
